(** * Commit log readers (server/commitlog/reader.go)

    A shallow embedding of the single-message decoder [ReadMessage], of the
    [UncommittedReader] and of the [CommittedReader], followed by the
    properties established about them.

    The readers call into [Segment] and [CommitLog], whose code lives in other
    files of the package.  The reader code is therefore embedded over an
    interface ([CommitLogAPI]) and every general theorem holds for any
    implementation of it; a concrete log ([Model]) is supplied to run the
    readers on explicit inputs. *)

From Stdlib Require Import ZArith List Lia Bool String.
From stdpp Require Import base option list gmap.
Import ListNotations.

Local Open Scope Z_scope.
#[local] Set Warnings "-clear-no-such-hyp".

(** ** Go values *)

Module Go.

(** [error] values that the readers produce or compare against.  [ErrOther]
    stands for every error value a collaborator may hand back that the reader
    code never inspects. *)
Inductive error : Type :=
| io_EOF
| ErrSegmentNotFound
| ErrNoSegmentToConsume   (* errors.New("no segment to consume") *)
| ErrOther (what : string).

(** [err != nil && err != io.EOF] *)
Definition hard_error (err : option error) : bool :=
  match err with
  | None => false
  | Some io_EOF => false
  | Some _ => true
  end.

(** [err == io.EOF] *)
Definition is_EOF (err : option error) : bool :=
  match err with
  | Some io_EOF => true
  | _ => false
  end.

(** [err == nil] *)
Definition is_nil (err : option error) : bool :=
  match err with
  | None => true
  | Some _ => false
  end.

(** Result of a call that may return normally with a value, return an error,
    or panic. *)
Inductive res (A : Type) : Type :=
| Ok (a : A)
| Err (e : error)
| Panic.
Arguments Ok {A} a.
Arguments Err {A} e.
Arguments Panic {A}.

(** Two's complement reading of a 64-bit pattern: [int64(x)], and the result
    of an [int64] addition or subtraction. *)
Definition wrap64 (z : Z) : Z := (z + 2 ^ 63) mod 2 ^ 64 - 2 ^ 63.

Definition int64_range (z : Z) : Prop := - 2 ^ 63 <= z < 2 ^ 63.

(** [min] of reader.go *)
Definition min (x y : Z) : Z := if x <? y then x else y.

(** [len(p)] *)
Definition len (p : list Byte.byte) : Z := Z.of_nat (length p).

(** [p[lo:hi]] is well formed when [0 <= lo <= hi <= cap(p)]; otherwise the
    slice expression panics.  Buffers are modelled with [cap(p) = len(p)]. *)
Definition slice_ok (p : list Byte.byte) (lo hi : Z) : bool :=
  (0 <=? lo) && (lo <=? hi) && (hi <=? len p).

(** What a callee that was handed a slice [q] and reports the bytes [bs]
    leaves in [q]: the bytes are stored from index 0 and can never run past
    the slice. *)
Definition fill (q bs : list Byte.byte) : list Byte.byte :=
  take (length q) (bs ++ drop (length bs) q).

(** The buffer [p] after a callee wrote [bs] through the slice [p[lo:hi]]. *)
Definition store (p : list Byte.byte) (lo hi : Z) (bs : list Byte.byte)
  : list Byte.byte :=
  take (Z.to_nat lo) p
  ++ fill (take (Z.to_nat (hi - lo)) (drop (Z.to_nat lo) p)) bs
  ++ drop (Z.to_nat hi) p.

End Go.
Export Go.

(** ** Message framing *)

Module Wire.

Definition byte_val (b : Byte.byte) : Z := Z.of_N (Byte.to_N b).

Definition byte_of_Z (z : Z) : Byte.byte :=
  match Byte.of_N (Z.to_N (z mod 256)) with
  | Some b => b
  | None => Byte.x00
  end.

(** Modelled from the spec: [proto.Encoding], declared in the [proto] package,
    is the big-endian byte order (section 6 of the specification: fixed
    20-byte header, big-endian).  [be_decode] reads a big-endian unsigned
    number. *)
Definition be_decode (bs : list Byte.byte) : Z :=
  fold_left (fun acc b => acc * 256 + byte_val b) bs 0.

(** [proto.Encoding.Uint64(b)]: indexes [b[7]], so it panics on fewer than
    eight bytes. *)
Definition Uint64 (b : list Byte.byte) : option Z :=
  if (8 <=? length b)%nat then Some (be_decode (take 8 b)) else None.

(** [proto.Encoding.Uint32(b)] *)
Definition Uint32 (b : list Byte.byte) : option Z :=
  if (4 <=? length b)%nat then Some (be_decode (take 4 b)) else None.

(** [b[k:]]: panics when [k > len(b)]. *)
Definition from (k : nat) (b : list Byte.byte) : option (list Byte.byte) :=
  if (k <=? length b)%nat then Some (drop k b) else None.

(** Big-endian encoding on [n] bytes (the writer's side of the header). *)
Fixpoint be_encode (n : nat) (z : Z) : list Byte.byte :=
  match n with
  | O => []
  | S k => be_encode k (z / 256) ++ [byte_of_Z z]
  end.

(** A framed record: 20-byte header, then the payload. *)
Definition frame (offset timestamp : Z) (payload : list Byte.byte)
  : list Byte.byte :=
  be_encode 8 offset ++ be_encode 8 timestamp
  ++ be_encode 4 (len payload) ++ payload.

End Wire.

(** ** ReadMessage *)

Module Decoder.
Import Wire.

(** [io.Reader]: [io_Read s k] is one call [Read(p)] with [len(p) = k] in
    source state [s]; it yields the next state, the bytes stored at the front
    of [p] and the error. *)
Class Reader (S : Type) : Type :=
  io_Read : S -> nat -> S * list Byte.byte * option error.

Definition Message : Type := list Byte.byte.

Section ReadMessage.
Context {S : Type} {RD : Reader S}.

(** The three header fields as decoded from [headersBuf]; [None] when one of
    the slice or index expressions is out of range. *)
Definition parse_header (headersBuf : list Byte.byte) : option (Z * Z * Z) :=
  b0 ← from 0 headersBuf;
  offset ← Uint64 b0;
  b8 ← from 8 headersBuf;
  timestamp ← Uint64 b8;
  b16 ← from 16 headersBuf;
  size ← Uint32 b16;
  Some (wrap64 offset, wrap64 timestamp, size).

(** [ReadMessage(reader, headersBuf)]: the result, the state of the source
    afterwards and the contents left in [headersBuf]. *)
Definition ReadMessage (reader : S) (headersBuf : list Byte.byte)
  : res (Message * Z * Z) * S * list Byte.byte :=
  let '(reader1, got, err) := io_Read reader (length headersBuf) in
  let headersBuf := fill headersBuf got in
  match err with
  | Some e => (Err e, reader1, headersBuf)
  | None =>
      match parse_header headersBuf with
      | None => (Panic, reader1, headersBuf)
      | Some (offset, timestamp, size) =>
          let buf := replicate (Z.to_nat size) Byte.x00 in
          let '(reader2, got2, err2) := io_Read reader1 (length buf) in
          let buf := fill buf got2 in
          match err2 with
          | Some e => (Err e, reader2, headersBuf)
          | None => (Ok (buf, offset, timestamp), reader2, headersBuf)
          end
      end
  end.

End ReadMessage.

(** A byte source that hands out its stream in pieces: each [Read] serves
    bytes from the first pending piece only, and reports [io.EOF] once no
    piece is left. *)
Definition chunks : Type := list (list Byte.byte).

Definition chunks_read (s : chunks) (k : nat)
  : chunks * list Byte.byte * option error :=
  match s with
  | [] => ([], [], Some io_EOF)
  | c :: rest =>
      if (length c <=? k)%nat then (rest, c, None)
      else (drop k c :: rest, take k c, None)
  end.

#[export] Instance chunks_Reader : Reader chunks := chunks_read.

(** A byte source over a stream that serves a [Read] in full or not at all,
    as a log reader does: it fills the slice, or reports [io.EOF]. *)
Definition whole : Type := list Byte.byte.

Definition whole_read (s : whole) (k : nat)
  : whole * list Byte.byte * option error :=
  if (length s <? k)%nat then (s, [], Some io_EOF)
  else (drop k s, take k s, None).

(** Every [Read] of the source that reports no error has filled its slice. *)
Definition fill_or_fail {S : Type} (rd : Reader S) : Prop :=
  forall (s : S) (k : nat),
    (rd s k).2 = None -> length (rd s k).1.2 = k.

(** The decoder in the words of the specification, over the whole stream the
    source is going to deliver: the first 20 bytes are the header, the next
    [size] bytes the payload; a stream that ends before either is complete is
    an [EndOfStream] failure. *)
Definition ReadMessage_spec (stream : list Byte.byte) : res (Message * Z * Z) :=
  if (length stream <? 20)%nat then Err io_EOF
  else
    let offset := be_decode (take 8 stream) in
    let timestamp := be_decode (take 8 (drop 8 stream)) in
    let size := be_decode (take 4 (drop 16 stream)) in
    let rest := drop 20 stream in
    if (length rest <? Z.to_nat size)%nat then Err io_EOF
    else Ok (take (Z.to_nat size) rest, offset, timestamp).

End Decoder.

(** ** The collaborators of the readers *)

Module Log.

(** [*Segment]: segment objects are shared with the writers and compared by
    identity, so a reader holds an address; [nil] is [None]. *)
Definition ptr : Type := nat.

(** An index entry, as far as reader.go uses it. *)
Record Entry : Type := { Position : Z; Size : Z }.

(** What reader.go calls on [*CommitLog] and [*Segment], as functions of the
    state [W] of the log at the moment of the call.  [ReadAt w seg k pos] is
    [seg.ReadAt(q, pos)] for a slice [q] of length [k]: the bytes stored in
    [q] and the error.  [findSegment] yields the segment and its index in the
    list. *)
Class CommitLogAPI (W : Type) : Type := {
  Segments : W -> list ptr;
  HighWatermark : W -> Z;
  OldestOffset : W -> Z;
  BaseOffset : W -> ptr -> Z;
  ReadAt : W -> ptr -> Z -> Z -> list Byte.byte * option error;
  findEntry : W -> ptr -> Z -> error + Entry;
  findSegment : W -> list ptr -> Z -> option (ptr * nat);
  findSegmentByBaseOffset : W -> list ptr -> Z -> option ptr
}.

(** [io.ReaderAt]: a read never reports more bytes than the slice holds. *)
Definition ReadAt_bounded {W : Type} {API : CommitLogAPI W} : Prop :=
  forall (w : W) (seg : ptr) (k pos : Z),
    0 <= k -> len (ReadAt w seg k pos).1 <= k.

(** What a parked reader observes when its [select] fires: the log was
    closed, the context was cancelled, or the wait channel was signalled, in
    which case the reader goes on in the log as the writers left it. *)
Inductive signal (W : Type) : Type :=
| Closed
| Cancelled
| Woken (w : W).
Arguments Closed {W}.
Arguments Cancelled {W}.
Arguments Woken {W} w.

(** Calls into the collaborators that have an effect outside the reader or
    that move bytes into the caller's buffer, newest first. *)
Inductive call : Type :=
| CallReadAt (seg : ptr) (pos : Z) (bs : list Byte.byte) (err : option error)
| CallWaitForData (seg : ptr) (pos : Z)
| CallRemoveWaiter (seg : ptr)
| CallWaitForHW (hw : Z)
| CallRemoveHWWaiter.

(** The surroundings of a [Read] call: the log as it is now, the signals the
    successive waits are going to receive, and the calls made so far.  The log
    changes under the reader only while it is parked. *)
Record env (W : Type) : Type := Env {
  log : W;
  future : list (signal W);
  calls : list call
}.
Arguments Env {W} log future calls.
Arguments log {W} e.
Arguments future {W} e.
Arguments calls {W} e.

(** All bytes that [ReadAt] calls have stored, oldest first. *)
Fixpoint copied (tr : list call) : list Byte.byte :=
  match tr with
  | [] => []
  | CallReadAt _ _ bs _ :: older => copied older ++ bs
  | _ :: older => copied older
  end.

(** The buffer [p] and the count [n] agree with the calls made so far: [n]
    counts the bytes the reads have stored, and these bytes are the first [n]
    bytes of [p], in the order in which they were read. *)
Definition delivered (p : list Byte.byte) (n : Z) (tr : list call) : Prop :=
  0 <= n <= len p
  /\ n = len (copied tr)
  /\ take (Z.to_nat n) p = copied tr.

(** The read ended on the cancellation or close branch of a wait: those
    branches are the only callers of the two deregistration functions, and
    they return at once. *)
Definition ended_by_cancellation (tr : list call) : bool :=
  match tr with
  | CallRemoveWaiter _ :: _ => true
  | CallRemoveHWWaiter :: _ => true
  | _ => false
  end.

(** A call that deregisters the reader. *)
Definition is_removal (c : call) : bool :=
  match c with
  | CallRemoveWaiter _ => true
  | CallRemoveHWWaiter => true
  | _ => false
  end.

(** In the calls made so far (newest first) a deregistration occurs at most
    once, as the newest call, and directly after the registration on the same
    segment (resp. on the high watermark) that it takes back. *)
Definition deregisters_last_only (tr : list call) : Prop :=
  match tr with
  | [] => True
  | c :: older =>
      Forall (fun c' => is_removal c' = false) older
      /\ match c with
         | CallRemoveWaiter s =>
             exists pos older', older = CallWaitForData s pos :: older'
         | CallRemoveHWWaiter =>
             exists hw older', older = CallWaitForHW hw :: older'
         | _ => True
         end
  end.

Definition is_woken {W : Type} (sig : signal W) : bool :=
  match sig with
  | Woken _ => true
  | _ => false
  end.

(** Of the signals [fut] that were ahead of a [Read] call, [fut'] are left
    when it ends, and the last one that a wait of the call received was the
    close of the log or the cancellation of the context. *)
Definition cancelled_in_wait {W : Type} (fut fut' : list (signal W)) : Prop :=
  exists (before : list (signal W)) (sig : signal W),
    fut = before ++ sig :: fut' /\ is_woken sig = false.

(** How a [Read] call ends: it returns [(n, err)], it panics, it stays
    parked for good because no signal is left, or the embedding ran out of
    fuel. *)
Inductive outcome : Type :=
| Returned (n : Z) (err : option error)
| Panicked
| Parked
| OutOfFuel.

(** One pass through a loop body. *)
Inductive step (St : Type) : Type :=
| Continue (st : St)
| Break (st : St) (err : option error)
| Crash
| Park (st : St).
Arguments Continue {St} st.
Arguments Break {St} st err.
Arguments Crash {St}.
Arguments Park {St} st.

End Log.

(** ** UncommittedReader *)

Module Uncommitted.
Import Log.

(** The fields of [UncommittedReader] that [Read] changes; [cl] and [ctx] are
    the environment, and [mu] serialises the calls. *)
Record UncommittedReader : Type := Reader {
  seg : ptr;
  pos : Z
}.

(** The variables of one [Read(p)] call that live across iterations.  The
    count [n] is a Go [int]; it stays within [len(p)], so its additions are
    written without wrap-around. *)
Record state : Type := State {
  r : UncommittedReader;
  p : list Byte.byte;
  n : Z;
  segments : list ptr;
  waiting : bool
}.

Section Reader.
Context {W : Type} {API : CommitLogAPI W}.

(** [r.waitForData(seg)] when the [select] receives [sig] ([None]: nothing
    ever fires).  [Some true] and [Some false] are the return values. *)
Definition waitForData (r : UncommittedReader) (seg : ptr)
    (sig : option (signal W)) (w : W) (tr : list call)
  : option bool * W * list call :=
  let tr := CallWaitForData seg (pos r) :: tr in
  match sig with
  | Some Closed => (Some false, w, CallRemoveWaiter seg :: tr)
  | Some Cancelled => (Some false, w, CallRemoveWaiter seg :: tr)
  | Some (Woken w') => (Some true, w', tr)
  | None => (None, w, tr)
  end.

(** [for nextSeg == nil { if !r.waitForData(r.seg) { err = io.EOF; break LOOP }
    segments = r.cl.Segments() }]: [nextSeg] is not assigned in the loop, so
    it runs until a wait returns false. *)
Fixpoint await_next_segment (r : UncommittedReader) (w : W) (tr : list call)
    (fut : list (signal W)) : option bool * env W :=
  match fut with
  | [] =>
      let '(_, w, tr) := waitForData r (seg r) None w tr in
      (None, Env w [] tr)
  | sig :: rest =>
      match waitForData r (seg r) (Some sig) w tr with
      | (Some true, w, tr) => await_next_segment r w tr rest
      | (woke, w, tr) => (woke, Env w rest tr)
      end
  end.

(** One iteration of [LOOP] in [UncommittedReader.Read]. *)
Definition Read_body (st : state) (e : env W) : step state * env W :=
  let '(State r p n segments waiting) := st in
  if negb (slice_ok p n (len p)) then (Crash, e) else
  let '(bs, err) := ReadAt (log e) (seg r) (len p - n) (pos r) in
  let e := Env (log e) (future e) (CallReadAt (seg r) (pos r) bs err :: calls e) in
  let p := store p n (len p) bs in
  let readSize := len bs in
  let n := n + readSize in
  let r := Reader (seg r) (wrap64 (pos r + readSize)) in
  if hard_error err then (Break (State r p n segments waiting) err, e)
  else if n =? len p then (Break (State r p n segments waiting) err, e)
  else if negb (readSize =? 0) && is_nil err then
    (Continue (State r p n segments false), e)
  else if is_EOF err && negb waiting then
    (* We hit the end of the segment. *)
    match findSegmentByBaseOffset (log e) segments
            (wrap64 (BaseOffset (log e) (seg r) + 1)) with
    | Some nextSeg => (Continue (State (Reader nextSeg 0) p n segments waiting), e)
    | None =>
        match waitForData r (seg r) (hd_error (future e)) (log e) (calls e) with
        | (Some true, w, tr) =>
            (Continue (State r p n segments true), Env w (tl (future e)) tr)
        | (Some false, w, tr) =>
            (Break (State r p n segments true) (Some io_EOF),
             Env w (tl (future e)) tr)
        | (None, w, tr) =>
            (Park (State r p n segments true), Env w (tl (future e)) tr)
        end
    end
  else
    let segments := Segments (log e) in
    match findSegmentByBaseOffset (log e) segments
            (wrap64 (BaseOffset (log e) (seg r) + 1)) with
    | Some nextSeg =>
        (Continue (State (Reader nextSeg (pos r)) p n segments waiting), e)
    | None =>
        match await_next_segment r (log e) (calls e) (future e) with
        | (Some _, e) =>
            (Break (State r p n (Segments (log e)) waiting) (Some io_EOF), e)
        | (None, e) => (Park (State r p n (Segments (log e)) waiting), e)
        end
    end.

Fixpoint Read_loop (fuel : nat) (st : state) (e : env W)
  : outcome * state * env W :=
  match fuel with
  | O => (OutOfFuel, st, e)
  | S fuel =>
      match Read_body st e with
      | (Continue st, e) => Read_loop fuel st e
      | (Break st err, e) => (Returned (n st) err, st, e)
      | (Crash, e) => (Panicked, st, e)
      | (Park st, e) => (Parked, st, e)
      end
  end.

(** [r.Read(p)]: how the call ends, the reader and the buffer afterwards. *)
Definition Read (fuel : nat) (r : UncommittedReader) (p : list Byte.byte)
    (e : env W) : outcome * state * env W :=
  Read_loop fuel (State r p 0 (Segments (log e)) false) e.

(** [l.NewReaderUncommitted(ctx, offset)] *)
Definition NewReaderUncommitted (w : W) (offset : Z) : res UncommittedReader :=
  match findSegment w (Segments w) offset with
  | None => Err ErrSegmentNotFound
  | Some (seg, _) =>
      match findEntry w seg offset with
      | inl err => Err err
      | inr e => Ok (Reader seg (Position e))
      end
  end.

End Reader.
End Uncommitted.

(** ** CommittedReader *)

Module Committed.
Import Log.

(** The fields of [CommittedReader] that the code reads and writes. *)
Record CommittedReader : Type := Reader {
  seg : option ptr;
  hwSeg : option ptr;
  pos : Z;
  hwPos : Z;
  hw : Z
}.

(** The variables of [readLoop] that live across iterations. *)
Record state : Type := State {
  r : CommittedReader;
  p : list Byte.byte;
  n : Z;
  segments : list ptr
}.

(** [r.seg == r.hwSeg] *)
Definition same_segment (a b : option ptr) : bool :=
  match a, b with
  | None, None => true
  | Some x, Some y => (x =? y)%nat
  | _, _ => false
  end.

(** How the loop [for hw == r.hw { ... }] ends. *)
Inductive synced (W : Type) : Type :=
| Synced (hw : Z) (e : env W)
| WaitFalse (e : env W)
| WaitForever (e : env W).
Arguments Synced {W} hw e.
Arguments WaitFalse {W} e.
Arguments WaitForever {W} e.

Section Reader.
Context {W : Type} {API : CommitLogAPI W}.

(** [getHWPos(segments, hw)] *)
Definition getHWPos (w : W) (segments : list ptr) (hw : Z)
  : error + (nat * Z) :=
  match findSegment w segments hw with
  | None => inl ErrSegmentNotFound
  | Some (hwSeg, hwIdx) =>
      match findEntry w hwSeg hw with
      | inl err => inl err
      | inr hwEntry => inr (hwIdx, wrap64 (Position hwEntry + Size hwEntry))
      end
  end.

(** [r.waitForHW(hw)] when the [select] receives [sig]. *)
Definition waitForHW (hw : Z) (sig : option (signal W)) (w : W)
    (tr : list call) : option bool * W * list call :=
  let tr := CallWaitForHW hw :: tr in
  match sig with
  | Some Closed => (Some false, w, CallRemoveHWWaiter :: tr)
  | Some Cancelled => (Some false, w, CallRemoveHWWaiter :: tr)
  | Some (Woken w') => (Some true, w', tr)
  | None => (None, w, tr)
  end.

(** [hw := r.cl.HighWatermark(); for hw == r.hw { if !r.waitForHW(hw) { ... }
    hw = r.cl.HighWatermark() }], which both [Read] and [readLoop] contain. *)
Fixpoint syncHW (r_hw : Z) (w : W) (tr : list call) (fut : list (signal W))
  : synced W :=
  let hw := HighWatermark w in
  if negb (hw =? r_hw) then Synced hw (Env w fut tr)
  else
    match fut with
    | [] =>
        let '(_, w, tr) := waitForHW hw None w tr in
        WaitForever (Env w [] tr)
    | sig :: rest =>
        match waitForHW hw (Some sig) w tr with
        | (Some true, w, tr) => syncHW r_hw w tr rest
        | (Some false, w, tr) => WaitFalse (Env w rest tr)
        | (None, w, tr) => WaitForever (Env w rest tr)
        end
    end.

(** The bound [lim] of one iteration of [readLoop]. *)
Definition limit (r : CommittedReader) (p : list Byte.byte) : Z :=
  let lim := len p in
  if same_segment (seg r) (hwSeg r) then
    (* If we're reading from the HW segment, read up to the HW pos. *)
    min lim (wrap64 (hwPos r - pos r))
  else lim.

(** [r.seg.ReadAt(p[n:lim], r.pos)] of one iteration: [None] when the call
    panics, because [r.seg] is nil or the slice expression is out of range. *)
Definition segment_read (w : W) (r : CommittedReader) (p : list Byte.byte)
    (n : Z) : option (list Byte.byte * option error) :=
  let lim := limit r p in
  match seg r with
  | None => None
  | Some s =>
      if slice_ok p n lim then Some (ReadAt w s (lim - n) (pos r)) else None
  end.

(** One iteration of [LOOP] in [readLoop]. *)
Definition readLoop_body (st : state) (e : env W) : step state * env W :=
  let '(State r p n segments) := st in
  match seg r, segment_read (log e) r p n with
  | Some s, Some (bs, err) =>
      let e := Env (log e) (future e) (CallReadAt s (pos r) bs err :: calls e) in
      let p := store p n (limit r p) bs in
      let readSize := len bs in
      let n := n + readSize in
      let r := Reader (seg r) (hwSeg r) (wrap64 (pos r + readSize)) (hwPos r) (hw r) in
      if hard_error err then (Break (State r p n segments) err, e)
      else if n =? len p then (Break (State r p n segments) err, e)
      else if negb (readSize =? 0) && is_nil err then
        (Continue (State r p n segments), e)
      else if is_EOF err then
        (* We hit the end of the segment, so jump to the next one. *)
        match findSegmentByBaseOffset (log e) segments
                (wrap64 (BaseOffset (log e) s + 1)) with
        | None => (Break (State r p n segments) (Some ErrNoSegmentToConsume), e)
        | Some nextSeg =>
            (Continue (State (Reader (Some nextSeg) (hwSeg r) 0 (hwPos r) (hw r))
                         p n segments), e)
        end
      else
        (* We hit the HW, so sync the latest. *)
        match syncHW (hw r) (log e) (calls e) (future e) with
        | WaitForever e => (Park (State r p n segments), e)
        | WaitFalse e => (Break (State r p n segments) (Some io_EOF), e)
        | Synced hw' e =>
            let r := Reader (seg r) (hwSeg r) (pos r) (hwPos r) hw' in
            let segments := Segments (log e) in
            match getHWPos (log e) segments hw' with
            | inl _ =>
                (* the [err] declared by [:=] is local to the iteration; the
                   function returns its own [err], left by [ReadAt] *)
                (Break (State r p n segments) err, e)
            | inr (hwIdx, hwPos') =>
                match segments !! hwIdx with
                | None => (Crash, e)
                | Some s' =>
                    (Continue (State (Reader (seg r) (Some s') (pos r) hwPos' hw')
                                 p n segments), e)
                end
            end
        end
  | _, _ => (Crash, e)
  end.

Fixpoint readLoop (fuel : nat) (st : state) (e : env W)
  : outcome * state * env W :=
  match fuel with
  | O => (OutOfFuel, st, e)
  | S fuel =>
      match readLoop_body st e with
      | (Continue st, e) => readLoop fuel st e
      | (Break st err, e) => (Returned (n st) err, st, e)
      | (Crash, e) => (Panicked, st, e)
      | (Park st, e) => (Parked, st, e)
      end
  end.

(** The part of [Read] that runs when [r.seg == nil]: the reader it leaves
    and the segment list, or the values [Read] returns at once. *)
Definition enter (r : CommittedReader) (e : env W)
  : (outcome + list ptr) * CommittedReader * env W :=
  let offset := wrap64 (hw r + 1) in  (* We want to read the next committed message. *)
  match syncHW (hw r) (log e) (calls e) (future e) with
  | WaitForever e => (inl Parked, r, e)
  | WaitFalse e => (inl (Returned 0 (Some io_EOF)), r, e)
  | Synced hw' e =>
      let r := Reader (seg r) (hwSeg r) (pos r) (hwPos r) hw' in
      let segments := Segments (log e) in
      match getHWPos (log e) segments hw' with
      | inl err => (inl (Returned 0 (Some err)), r, e)
      | inr (hwIdx, hwPos') =>
          match segments !! hwIdx with
          | None => (inl Panicked, r, e)
          | Some s' =>
              let r := Reader (seg r) (Some s') (pos r) hwPos' hw' in
              match findSegment (log e) segments offset with
              | None =>
                  (inl (Returned 0 (Some ErrSegmentNotFound)),
                   Reader None (hwSeg r) (pos r) (hwPos r) (hw r), e)
              | Some (s, _) =>
                  let r := Reader (Some s) (hwSeg r) (pos r) (hwPos r) (hw r) in
                  match findEntry (log e) s offset with
                  | inl err => (inl (Returned 0 (Some err)), r, e)
                  | inr entry =>
                      (inr segments,
                       Reader (seg r) (hwSeg r) (Position entry) (hwPos r) (hw r), e)
                  end
              end
          end
      end
  end.

(** [r.Read(p)]: how the call ends, the reader and the buffer afterwards. *)
Definition Read (fuel : nat) (r : CommittedReader) (p : list Byte.byte)
    (e : env W) : outcome * state * env W :=
  let segments := Segments (log e) in
  match seg r with
  | None =>
      match enter r e with
      | (inl out, r, e) => (out, State r p 0 segments, e)
      | (inr segments, r, e) => readLoop fuel (State r p 0 segments) e
      end
  | Some _ => readLoop fuel (State r p 0 segments) e
  end.

(** [l.NewReaderCommitted(ctx, offset)] *)
Definition NewReaderCommitted (w : W) (offset : Z) : res CommittedReader :=
  let hw := HighWatermark w in
  let segments := Segments w in
  let cursor : res (option ptr * Z) :=
    if negb (hw =? -1) then
      match getHWPos w segments hw with
      | inl err => Err err
      | inr (hwIdx, hwPosition) =>
          match segments !! hwIdx with
          | None => Panic
          | Some s => Ok (Some s, hwPosition)
          end
      end
    else Ok (None, -1) in
  match cursor with
  | Err err => Err err
  | Panic => Panic
  | Ok (hwSeg, hwPos) =>
      (* If offset exceeds HW, wait for the next message. This also covers
         the case when the log is empty. *)
      if hw <? offset then Ok (Reader None hwSeg (-1) hwPos hw)
      else
        let offset :=
          if offset <? OldestOffset w then OldestOffset w else offset in
        match findSegment w segments offset with
        | None => Err ErrSegmentNotFound
        | Some (seg, _) =>
            match findEntry w seg offset with
            | inl err => Err err
            | inr entry => Ok (Reader (Some seg) hwSeg (Position entry) hwPos hw)
            end
        end
  end.

End Reader.
End Committed.

(** ** A concrete log *)

Module Model.
Import Wire Log.

Record message : Type := Msg { timestamp : Z; payload : list Byte.byte }.

(** A segment object: its base offset and the messages appended to it so
    far, the first of which has the base offset. *)
Record Segment : Type := Seg { base : Z; messages : list message }.

(** The state of a log: the segment objects by address, the segment list,
    the high watermark and the oldest offset. *)
Record World : Type := World_ {
  heap : list Segment;
  segs : list ptr;
  hwm : Z;
  oldest : Z
}.

Definition frame_size (m : message) : Z := 20 + len (payload m).

(** The bytes of a segment: the framed messages, in offset order. *)
Fixpoint frames (offset : Z) (ms : list message) : list Byte.byte :=
  match ms with
  | [] => []
  | m :: ms => frame offset (timestamp m) (payload m) ++ frames (offset + 1) ms
  end.

Definition bytes (s : Segment) : list Byte.byte := frames (base s) (messages s).

(** The index of a segment: for each offset, the position and the size of
    its framed message. *)
Fixpoint index (offset position : Z) (ms : list message) : list (Z * Entry) :=
  match ms with
  | [] => []
  | m :: ms =>
      (offset, Build_Entry position (frame_size m))
      :: index (offset + 1) (position + frame_size m) ms
  end.

Definition base_of (w : World) (s : ptr) : Z :=
  match heap w !! s with
  | Some sg => base sg
  | None => 0
  end.

(** Modelled from the spec: [Segment.ReadAt] (section 4.3, [readAt]): a
    positional read that copies the bytes between [pos] and the last-written
    position into the slice and reports EndOfStream when it runs into the
    last-written position before the slice is full; a read that fills its
    slice, the empty slice included, reports no error. *)
Definition model_ReadAt (w : World) (s : ptr) (k pos : Z)
  : list Byte.byte * option error :=
  match heap w !! s with
  | None => ([], Some (ErrOther "invalid segment"))
  | Some sg =>
      if pos <? 0 then ([], Some (ErrOther "negative offset"))
      else
        let bs := take (Z.to_nat k) (drop (Z.to_nat pos) (bytes sg)) in
        (bs, if len bs <? k then Some io_EOF else None)
  end.

(** Modelled from the spec: [Segment.findEntry] (section 4.3): the position
    and size recorded for the offset, or OffsetOutOfRange. *)
Definition model_findEntry (w : World) (s : ptr) (offset : Z) : error + Entry :=
  match heap w !! s with
  | None => inl (ErrOther "invalid segment")
  | Some sg =>
      match List.find (fun oe => oe.1 =? offset) (index (base sg) 0 (messages sg)) with
      | Some (_, e) => inr e
      | None => inl (ErrOther "OffsetOutOfRange")
      end
  end.

(** Modelled from the spec: [findSegment] (section 4.2): the segment with
    the greatest base at most [offset], with its index in the list; none if
    [offset] precedes every base. *)
Fixpoint findSegment_from (w : World) (i : nat) (segments : list ptr)
    (offset : Z) (best : option (ptr * nat)) : option (ptr * nat) :=
  match segments with
  | [] => best
  | s :: rest =>
      let better :=
        (base_of w s <=? offset)
        && match best with
           | None => true
           | Some (b, _) => base_of w b <? base_of w s
           end in
      findSegment_from w (S i) rest offset (if better then Some (s, i) else best)
  end.

Definition model_findSegment (w : World) (segments : list ptr) (offset : Z)
  : option (ptr * nat) :=
  findSegment_from w 0 segments offset None.

(** Modelled from the spec: [findSegmentByBaseOffset] (section 4.2): the
    segment whose base equals the given one. *)
Definition model_findSegmentByBaseOffset (w : World) (segments : list ptr)
    (b : Z) : option ptr :=
  List.find (fun s => base_of w s =? b) segments.

#[export] Instance model_API : CommitLogAPI World := {|
  Segments := segs;
  HighWatermark := hwm;
  OldestOffset := oldest;
  BaseOffset := base_of;
  ReadAt := model_ReadAt;
  findEntry := model_findEntry;
  findSegment := model_findSegment;
  findSegmentByBaseOffset := model_findSegmentByBaseOffset
|}.

(** Modelled from the spec: the waiter sets of the collaborators (sections
    4.3 and 4.4): [waitForData] and [waitForHW] register the waiter,
    [removeWaiter] and [removeHWWaiter] deregister it.  A waiter on a segment
    is the pair of the segment and the reader. *)
Record waiters : Type := Waiters {
  on_data : gset (ptr * nat);
  on_hw : gset nat
}.

Definition removeWaiter (s : ptr) (me : nat) (ws : waiters) : waiters :=
  Waiters (on_data ws ∖ {[ (s, me) ]}) (on_hw ws).

Definition removeHWWaiter (me : nat) (ws : waiters) : waiters :=
  Waiters (on_data ws) (on_hw ws ∖ {[ me ]}).

(** The waiter sets after the reader [me] made one call. *)
Definition after_call (me : nat) (c : call) (ws : waiters) : waiters :=
  match c with
  | CallReadAt _ _ _ _ => ws
  | CallWaitForData s _ => Waiters ({[ (s, me) ]} ∪ on_data ws) (on_hw ws)
  | CallRemoveWaiter s => removeWaiter s me ws
  | CallWaitForHW _ => Waiters (on_data ws) ({[ me ]} ∪ on_hw ws)
  | CallRemoveHWWaiter => removeHWWaiter me ws
  end.

(** The waiter sets after a trace of calls (newest first). *)
Definition after_calls (me : nat) (tr : list call) (ws : waiters) : waiters :=
  foldr (after_call me) ws tr.

(** ** Example logs *)

Definition str (s : string) : list Byte.byte := list_byte_of_string s.

(** [k] messages with a one-byte payload. *)
Definition unit_messages (k : nat) : list message :=
  replicate k (Msg 7 (str "x")).

(** One segment holding the offsets [0..last], high watermark [h]. *)
Definition single (last h : Z) : World :=
  World_ [Seg 0 (unit_messages (Z.to_nat (last + 1)))] [0%nat] h 0.

(** Scenario S1: offsets 0, 1, 2 with payloads a, bb, ccc, high watermark 2. *)
Definition s1 : World :=
  World_ [Seg 0 [Msg 1 (str "a"); Msg 2 (str "bb"); Msg 3 (str "ccc")]]
         [0%nat] 2 0.

(** A log whose only segment holds offset 0, and the same log after the
    segment was rolled and offset 1 was appended to a new segment. *)
Definition before_roll : World :=
  World_ [Seg 0 [Msg 1 (str "a")]] [0%nat] 0 0.

Definition after_roll : World :=
  World_ [Seg 0 [Msg 1 (str "a")]; Seg 1 [Msg 2 (str "bb")]] [0%nat; 1%nat] 1 0.

Definition buffer (k : nat) : list Byte.byte := replicate k Byte.x00.

End Model.

(** * Properties *)

Import Log Model.

(** ** Buffers and integers *)

Section GoFacts.

Lemma wrap64_id (z : Z) : int64_range z -> wrap64 z = z.
Proof.
  unfold int64_range, wrap64. intros Hz.
  rewrite Z.mod_small; lia.
Qed.

Lemma min_le_l (x y : Z) : Go.min x y <= x.
Proof. unfold Go.min. destruct (Z.ltb_spec x y); lia. Qed.

Lemma min_le_r (x y : Z) : Go.min x y <= y.
Proof. unfold Go.min. destruct (Z.ltb_spec x y); lia. Qed.

Lemma len_app (a b : list Byte.byte) : len (a ++ b) = len a + len b.
Proof. unfold len. rewrite length_app. lia. Qed.

Lemma len_nonneg (p : list Byte.byte) : 0 <= len p.
Proof. unfold len. lia. Qed.

Lemma length_fill (q bs : list Byte.byte) : length (fill q bs) = length q.
Proof.
  unfold fill. rewrite length_take, length_app, length_drop. lia.
Qed.

Lemma fill_exact (q bs : list Byte.byte) :
  length bs = length q -> fill q bs = bs.
Proof.
  intros Hl. unfold fill.
  rewrite drop_ge by lia. rewrite app_nil_r.
  apply take_ge. lia.
Qed.

Lemma take_fill (q bs : list Byte.byte) :
  (length bs <= length q)%nat -> take (length bs) (fill q bs) = bs.
Proof.
  intros Hl. unfold fill.
  rewrite take_take, Nat.min_l by lia.
  rewrite take_app_le by lia. apply take_ge. lia.
Qed.

Lemma slice_ok_spec (p : list Byte.byte) (lo hi : Z) :
  slice_ok p lo hi = true <-> 0 <= lo /\ lo <= hi /\ hi <= len p.
Proof. unfold slice_ok. rewrite !andb_true_iff, !Z.leb_le. tauto. Qed.

Lemma length_store (p : list Byte.byte) (lo hi : Z) (bs : list Byte.byte) :
  slice_ok p lo hi = true -> length (store p lo hi bs) = length p.
Proof.
  rewrite slice_ok_spec. unfold len, store. intros (H0 & H1 & H2).
  rewrite !length_app, length_fill, !length_take, !length_drop. lia.
Qed.

Lemma len_store (p : list Byte.byte) (lo hi : Z) (bs : list Byte.byte) :
  slice_ok p lo hi = true -> len (store p lo hi bs) = len p.
Proof. intros Hs. unfold len. by rewrite length_store. Qed.

(** After a store through [p[lo:hi]], the buffer up to [lo] is untouched and
    is followed by the bytes stored. *)
Lemma take_store (p : list Byte.byte) (lo hi : Z) (bs : list Byte.byte) :
  slice_ok p lo hi = true -> len bs <= hi - lo ->
  take (Z.to_nat (lo + len bs)) (store p lo hi bs) = take (Z.to_nat lo) p ++ bs.
Proof.
  rewrite slice_ok_spec. unfold len, store. intros (H0 & H1 & H2) Hb.
  set (q := take (Z.to_nat (hi - lo)) (drop (Z.to_nat lo) p)).
  assert (Hq : length q = Z.to_nat (hi - lo)).
  { unfold q. rewrite length_take, length_drop. lia. }
  assert (Hl : length (take (Z.to_nat lo) p) = Z.to_nat lo).
  { rewrite length_take. lia. }
  rewrite take_app_ge by lia. f_equal.
  rewrite Hl.
  replace (Z.to_nat (lo + Z.of_nat (length bs)) - Z.to_nat lo)%nat
    with (length bs) by lia.
  rewrite take_app_le by (rewrite length_fill; lia).
  apply take_fill. lia.
Qed.

End GoFacts.

(** ** ReadMessage *)

Section DecoderFacts.
Import Wire Decoder Model.

Lemma parse_header_20 (h : list Byte.byte) :
  length h = 20%nat ->
  parse_header h =
    Some (wrap64 (be_decode (take 8 h)),
          wrap64 (be_decode (take 8 (drop 8 h))),
          be_decode (take 4 (drop 16 h))).
Proof.
  intros Hl. unfold parse_header, from, Uint64, Uint32.
  rewrite Hl. simpl. rewrite !length_drop, Hl. reflexivity.
Qed.

Lemma whole_fill_or_fail : fill_or_fail whole_read.
Proof.
  intros s k. unfold whole_read.
  destruct (Nat.ltb_spec (length s) k) as [Hlt | Hge]; simpl; [done |].
  intros _. rewrite length_take. lia.
Qed.

(** C4, as stated, fails: a source may serve a [Read] in part.  Here the
    source delivers the framed record (offset 1, timestamp 2, payload abc) ten
    bytes at a time: the decoder consumes ten bytes, not twenty, and returns an
    empty payload and a wrong timestamp instead of the record.  And the header
    [Read] takes as many bytes as the header buffer is long: with a 24-byte
    buffer, over a source that fills every slice, the payload is read four
    bytes too far. *)
Lemma ReadMessage_short_read :
  let stream := frame 1 2 (str "abc") in
  let source : chunks := [take 10 stream; drop 10 stream] in
  ReadMessage_spec (concat source) = Ok (str "abc", 1, 2)
  /\ ReadMessage (RD := chunks_Reader) source (buffer 20)
     = (Ok ([], 1, 0), [drop 10 stream], take 10 stream ++ buffer 10)
  /\ ReadMessage_spec (stream ++ frame 2 3 (str "defg")) = Ok (str "abc", 1, 2)
  /\ (ReadMessage (RD := whole_read) (stream ++ frame 2 3 (str "defg"))
        (buffer 24)).1.1
     = Ok ([Byte.x00; Byte.x00; Byte.x00], 1, 2).
Proof. vm_compute. repeat split; reflexivity. Qed.

(** C4, amended: over a source whose [Read] fills its slice or fails, and
    with a header buffer of 20 bytes, [ReadMessage] makes one [Read] of 20
    bytes, decodes the big-endian header, makes one [Read] of [size] bytes and
    returns that payload with the offset and the timestamp as [int64]; an
    error of either [Read], [io.EOF] included, is returned as it is. *)
Theorem ReadMessage_full_reads {S : Type} (rd : Reader S) (reader : S)
    (headersBuf : list Byte.byte) :
  fill_or_fail rd ->
  length headersBuf = 20%nat ->
  let '(reader1, h, err) := rd reader 20%nat in
  match err with
  | Some e =>
      ReadMessage (RD := rd) reader headersBuf = (Err e, reader1, fill headersBuf h)
  | None =>
      let size := be_decode (take 4 (drop 16 h)) in
      let '(reader2, b, err2) := rd reader1 (Z.to_nat size) in
      length h = 20%nat
      /\ match err2 with
         | Some e => ReadMessage (RD := rd) reader headersBuf = (Err e, reader2, h)
         | None =>
             length b = Z.to_nat size
             /\ ReadMessage (RD := rd) reader headersBuf
                = (Ok (b, wrap64 (be_decode (take 8 h)),
                       wrap64 (be_decode (take 8 (drop 8 h)))),
                   reader2, h)
         end
  end.
Proof.
  intros Hff Hl. unfold ReadMessage, io_Read. rewrite Hl.
  pose proof (Hff reader 20%nat) as Hh.
  destruct (rd reader 20%nat) as [[reader1 h] err]. simpl in Hh.
  destruct err as [e |]; [reflexivity |].
  specialize (Hh eq_refl).
  rewrite (fill_exact headersBuf h) by lia.
  rewrite (parse_header_20 h Hh). cbv zeta.
  rewrite length_replicate.
  pose proof (Hff reader1 (Z.to_nat (be_decode (take 4 (drop 16 h))))) as Hb.
  destruct (rd reader1 (Z.to_nat (be_decode (take 4 (drop 16 h)))))
    as [[reader2 b] err2].
  simpl in Hb. split; [exact Hh |].
  destruct err2 as [e |]; [reflexivity |].
  specialize (Hb eq_refl). split; [exact Hb |].
  rewrite fill_exact; [reflexivity |].
  rewrite length_replicate. exact Hb.
Qed.

Lemma ReadMessage_full_reads_witness :
  fill_or_fail whole_read
  /\ ReadMessage (RD := whole_read) (frame 1 2 (str "abc")) (buffer 20)
     = (Ok (str "abc", 1, 2), [], be_encode 8 1 ++ be_encode 8 2 ++ be_encode 4 3).
Proof.
  split; [exact whole_fill_or_fail |].
  pose proof (ReadMessage_full_reads whole_read (frame 1 2 (str "abc"))
                (buffer 20) whole_fill_or_fail eq_refl) as Hw.
  vm_compute in Hw. destruct Hw as [_ [_ Hw]]. vm_compute. exact Hw.
Defined.

End DecoderFacts.

(** ** Waits and waiter sets *)

Section WaitFacts.
Import Log Model.
Context {W : Type} {API : CommitLogAPI W}.

Lemma removeWaiter_idempotent (s : ptr) (me : nat) (ws : waiters) :
  removeWaiter s me (removeWaiter s me ws) = removeWaiter s me ws.
Proof. unfold removeWaiter. simpl. f_equal. set_solver. Qed.

Lemma removeHWWaiter_idempotent (me : nat) (ws : waiters) :
  removeHWWaiter me (removeHWWaiter me ws) = removeHWWaiter me ws.
Proof. unfold removeHWWaiter. simpl. f_equal. set_solver. Qed.

End WaitFacts.

(** C8, as stated, fails on the satisfied wake-up: the reader parked at the
    end of the only segment is woken by a roll; [waitForData] returns true and
    the only call it made is the registration. *)
Lemma satisfied_wake_makes_no_removeWaiter_call :
  Uncommitted.waitForData (Uncommitted.Reader 0%nat 21) 0%nat
    (Some (Log.Woken Model.after_roll)) Model.before_roll []
  = (Some true, Model.after_roll, [Log.CallWaitForData 0%nat 21])
  /\ Committed.waitForHW 0 (Some (Log.Woken Model.after_roll)) Model.before_roll []
  = (Some true, Model.after_roll, [Log.CallWaitForHW 0]).
Proof. split; reflexivity. Qed.

(** ** CommittedReader: construction *)

Section ConstructionFacts.
Import Log Committed.
Context {W : Type} {API : CommitLogAPI W}.

(** C6: for a log whose high watermark, when there is one, can be located
    ([getHWPos] finds its segment [hwSeg] and its end position [hwPos]), and
    for a non-negative [offset]: above the high watermark the constructor
    returns a reader in waiting state ([seg] nil, [pos] -1) that retains
    [hw], [hwSeg] and [hwPos], which are -1, nil and -1 for the empty log;
    otherwise it raises the offset to the oldest offset, locates its segment
    and position and returns a reader in reading state. *)
Theorem NewReaderCommitted_states (w : W) (offset : Z)
    (hwSeg : option ptr) (hwPos : Z) :
  0 <= offset ->
  (HighWatermark w = -1 /\ hwSeg = None /\ hwPos = -1)
  \/ (HighWatermark w <> -1
      /\ exists idx s,
           getHWPos w (Segments w) (HighWatermark w) = inr (idx, hwPos)
           /\ Segments w !! idx = Some s /\ hwSeg = Some s) ->
  (HighWatermark w = -1 ->
   NewReaderCommitted w offset = Ok (Reader None None (-1) (-1) (-1)))
  /\ (HighWatermark w < offset ->
      NewReaderCommitted w offset
      = Ok (Reader None hwSeg (-1) hwPos (HighWatermark w)))
  /\ (offset <= HighWatermark w ->
      forall (s : ptr) (i : nat) (entry : Entry),
        findSegment w (Segments w) (Z.max offset (OldestOffset w)) = Some (s, i) ->
        findEntry w s (Z.max offset (OldestOffset w)) = inr entry ->
        NewReaderCommitted w offset
        = Ok (Reader (Some s) hwSeg (Position entry) hwPos (HighWatermark w))).
Proof.
  intros Hoff Hcur. unfold NewReaderCommitted.
  assert (Hc :
    (if negb (HighWatermark w =? -1)
     then match getHWPos w (Segments w) (HighWatermark w) with
          | inl err => Err err
          | inr (hwIdx, hwPosition) =>
              match Segments w !! hwIdx with
              | Some s => Ok (Some s, hwPosition)
              | None => Panic
              end
          end
     else Ok (None, -1)) = Ok (hwSeg, hwPos)).
  { destruct Hcur as [(Hhw & -> & ->) | (Hhw & idx & s & Hg & Hs & ->)].
    - rewrite Hhw. reflexivity.
    - destruct (Z.eqb_spec (HighWatermark w) (-1)) as [Heq | _]; [done |].
      simpl. rewrite Hg, Hs. reflexivity. }
  rewrite Hc. repeat split.
  - intros Hhw. destruct Hcur as [(_ & -> & ->) | (Hne & _)]; [| done].
    rewrite Hhw. destruct (Z.ltb_spec (-1) offset); [reflexivity | lia].
  - intros Hlt. destruct (Z.ltb_spec (HighWatermark w) offset); [reflexivity | lia].
  - intros Hle s i entry Hs He.
    destruct (Z.ltb_spec (HighWatermark w) offset); [lia |].
    assert (Hmax : (if offset <? OldestOffset w then OldestOffset w else offset)
                   = Z.max offset (OldestOffset w)).
    { destruct (Z.ltb_spec offset (OldestOffset w)); lia. }
    rewrite Hmax, Hs, He. reflexivity.
Qed.

(** The requested offset does not reach a reader built in waiting state. *)
Lemma NewReaderCommitted_forgets_offset (w : W) (o1 o2 : Z) :
  HighWatermark w < o1 -> HighWatermark w < o2 ->
  NewReaderCommitted w o1 = NewReaderCommitted w o2.
Proof.
  intros H1 H2. unfold NewReaderCommitted.
  destruct (if negb (HighWatermark w =? -1) then _ else _) as [[hs hp] | e |];
    try reflexivity.
  destruct (Z.ltb_spec (HighWatermark w) o1); [| lia].
  destruct (Z.ltb_spec (HighWatermark w) o2); [| lia].
  reflexivity.
Qed.

Lemma NewReaderCommitted_waiting_hw (w : W) (offset : Z) (rd : CommittedReader) :
  HighWatermark w < offset ->
  NewReaderCommitted w offset = Ok rd ->
  seg rd = None /\ hw rd = HighWatermark w.
Proof.
  intros Hlt. unfold NewReaderCommitted.
  destruct (if negb (HighWatermark w =? -1) then _ else _) as [[hs hp] | e |];
    try discriminate.
  destruct (Z.ltb_spec (HighWatermark w) offset); [| lia].
  intros [= <-]. split; reflexivity.
Qed.

End ConstructionFacts.

Lemma NewReaderCommitted_states_witness :
  Committed.NewReaderCommitted Model.s1 5
  = Ok (Committed.Reader None (Some 0%nat) (-1) 66 2)
  /\ Committed.NewReaderCommitted Model.s1 1
  = Ok (Committed.Reader (Some 0%nat) (Some 0%nat) 21 66 2).
Proof.
  assert (Hcur :
    (Log.HighWatermark Model.s1 = -1 /\ Some 0%nat = None /\ 66 = -1)
    \/ (Log.HighWatermark Model.s1 <> -1
        /\ exists idx s,
             Committed.getHWPos Model.s1 (Log.Segments Model.s1)
               (Log.HighWatermark Model.s1) = inr (idx, 66)
             /\ Log.Segments Model.s1 !! idx = Some s /\ Some 0%nat = Some s)).
  { right. split; [vm_compute; discriminate |]. exists 0%nat, 0%nat.
    split; [vm_compute; reflexivity |]. split; reflexivity. }
  split.
  - apply (NewReaderCommitted_states Model.s1 5 (Some 0%nat) 66 ltac:(lia) Hcur).
    vm_compute. reflexivity.
  - destruct (NewReaderCommitted_states Model.s1 1 (Some 0%nat) 66 ltac:(lia) Hcur)
      as (_ & _ & Hread).
    apply (Hread ltac:(vm_compute; discriminate) 0%nat 0%nat
             (Log.Build_Entry 21 22));
      vm_compute; reflexivity.
Defined.

(** ** CommittedReader: the read loop *)

Section ReadLoopFacts.
Import Committed.
Context {W : Type} {API : CommitLogAPI W}.

Lemma limit_le_len (rd : CommittedReader) (p : list Byte.byte) :
  limit rd p <= len p.
Proof.
  unfold limit. destruct (same_segment (seg rd) (hwSeg rd)); [| lia].
  apply min_le_l.
Qed.

Lemma limit_HW (rd : CommittedReader) (p : list Byte.byte) :
  same_segment (seg rd) (hwSeg rd) = true ->
  limit rd p <= wrap64 (hwPos rd - pos rd).
Proof. intros Hs. unfold limit. rewrite Hs. apply min_le_r. Qed.

Lemma segment_read_Some (w : W) (rd : CommittedReader) (p : list Byte.byte)
    (n : Z) (bs : list Byte.byte) (err : option error) :
  segment_read w rd p n = Some (bs, err) ->
  exists s, seg rd = Some s
    /\ slice_ok p n (limit rd p) = true
    /\ ReadAt w s (limit rd p - n) (pos rd) = (bs, err).
Proof.
  unfold segment_read. destruct (seg rd) as [s |]; [| discriminate].
  destruct (slice_ok p n (limit rd p)) eqn:Hs; [| discriminate].
  intros [= Hr]. exists s. auto.
Qed.

Lemma readLoop_S (fuel : nat) (st : state) (e : env W) :
  readLoop (S fuel) st e =
  match readLoop_body st e with
  | (Continue st, e) => readLoop fuel st e
  | (Break st err, e) => (Returned (n st) err, st, e)
  | (Crash, e) => (Panicked, st, e)
  | (Park st, e) => (Parked, st, e)
  end.
Proof. reflexivity. Qed.

Lemma segment_read_below_HW (w : W) (rd : CommittedReader)
    (p : list Byte.byte) (n : Z) (bs : list Byte.byte) (err : option error) :
  ReadAt_bounded ->
  same_segment (seg rd) (hwSeg rd) = true ->
  0 <= pos rd < 2 ^ 63 ->
  0 <= hwPos rd < 2 ^ 63 ->
  segment_read w rd p n = Some (bs, err) ->
  len bs <= hwPos rd - pos rd.
Proof.
  intros HB Hsame Hpos Hhw Hread.
  destruct (segment_read_Some _ _ _ _ _ _ Hread) as (s & Hs & Hok & Hr).
  apply slice_ok_spec in Hok. destruct Hok as (Hn & Hlim & _).
  pose proof (HB w s (limit rd p - n) (pos rd) ltac:(lia)) as Hb.
  rewrite Hr in Hb. simpl in Hb.
  pose proof (limit_HW rd p Hsame) as Hl.
  rewrite wrap64_id in Hl by (unfold int64_range; lia).
  lia.
Qed.

Lemma readLoop_body_reads (st : state) (e : env W) :
  match readLoop_body st e with
  | (Continue st', _) | (Break st' _, _) | (Park st', _) =>
      exists bs err,
        segment_read (log e) (r st) (p st) (n st) = Some (bs, err)
        /\ n st' = n st + len bs
  | (Crash, _) => True
  end.
Proof.
  destruct st as [rd p n segs].
  cbn [Committed.r Committed.p Committed.n]. unfold readLoop_body.
  destruct (seg rd) as [s |]; [| exact I].
  destruct (segment_read (log e) rd p n) as [[bs err] |]; [| exact I].
  destruct (hard_error err); [eexists _, _; split; reflexivity |].
  destruct (_ =? len _); [eexists _, _; split; reflexivity |].
  destruct (negb _ && is_nil err); [eexists _, _; split; reflexivity |].
  destruct (is_EOF err).
  { destruct (findSegmentByBaseOffset _ _ _);
      eexists _, _; split; reflexivity. }
  destruct (syncHW _ _ _ _) as [hw' e' | e' | e'];
    try (eexists _, _; split; reflexivity).
  destruct (getHWPos _ _ _) as [failure | [hwIdx hwPos']];
    [eexists _, _; split; reflexivity |].
  destruct (_ !! hwIdx); [eexists _, _; split; reflexivity | exact I].
Qed.

(** C3: in an iteration of [readLoop] whose segment is the HW segment, the
    segment read returns at most [hwPos - pos] bytes, which is what the
    iteration adds to [n]; every position it copies from lies below [hwPos],
    the end of the record of the high watermark. *)
Theorem readLoop_read_below_HW (st : state) (e : env W) :
  ReadAt_bounded ->
  same_segment (seg (r st)) (hwSeg (r st)) = true ->
  0 <= pos (r st) < 2 ^ 63 ->
  0 <= hwPos (r st) < 2 ^ 63 ->
  match readLoop_body st e with
  | (Continue st', _) | (Break st' _, _) | (Park st', _) =>
      exists bs err,
        segment_read (log e) (r st) (p st) (n st) = Some (bs, err)
        /\ n st' = n st + len bs
        /\ len bs <= hwPos (r st) - pos (r st)
        /\ forall q, pos (r st) <= q < pos (r st) + len bs -> q < hwPos (r st)
  | (Crash, _) => True
  end.
Proof.
  intros HB Hsame Hpos Hhw.
  pose proof (readLoop_body_reads st e) as Hb.
  destruct (readLoop_body st e) as [[st' | st' err' | | st'] e']; [| | exact I |];
    destruct Hb as (bs & err & Hread & Hn);
    pose proof (segment_read_below_HW _ _ _ _ _ _ HB Hsame Hpos Hhw Hread) as Hle;
    exists bs, err; (repeat split; [exact Hread | exact Hn | exact Hle |]);
    intros q Hq; lia.
Qed.

(** C7: when the segment read of an iteration reports [io.EOF] and the
    buffer is not full, the reader moves to the segment found for the base
    offset plus one, at position 0, and the loop goes on; when there is no
    such segment, [readLoop] returns the bytes counted so far with the error
    "no segment to consume". *)
Theorem readLoop_end_of_segment (st : state) (e : env W) (s : ptr)
    (bs : list Byte.byte) :
  seg (r st) = Some s ->
  segment_read (log e) (r st) (p st) (n st) = Some (bs, Some io_EOF) ->
  n st + len bs <> len (p st) ->
  match findSegmentByBaseOffset (log e) (segments st)
          (wrap64 (BaseOffset (log e) s + 1)) with
  | Some nextSeg =>
      exists st' e',
        readLoop_body st e = (Continue st', e')
        /\ seg (r st') = Some nextSeg /\ pos (r st') = 0
        /\ n st' = n st + len bs
  | None =>
      forall fuel, exists st' e',
        readLoop (S fuel) st e
        = (Returned (n st + len bs) (Some ErrNoSegmentToConsume), st', e')
  end.
Proof.
  intros Hseg Hread Hfull.
  destruct (segment_read_Some _ _ _ _ _ _ Hread) as (s0 & Hs0 & Hok & _).
  destruct st as [rd p n segs].
  cbn [Committed.r Committed.p Committed.n Committed.segments] in *.
  assert (Hbody : forall nxt,
    findSegmentByBaseOffset (log e) segs (wrap64 (BaseOffset (log e) s + 1)) = nxt ->
    readLoop_body (State rd p n segs) e =
    let e1 := Env (log e) (future e)
                (CallReadAt s (pos rd) bs (Some io_EOF) :: calls e) in
    let p1 := store p n (limit rd p) bs in
    let r1 := Reader (seg rd) (hwSeg rd) (wrap64 (pos rd + len bs)) (hwPos rd) (hw rd) in
    match nxt with
    | None => (Break (State r1 p1 (n + len bs) segs) (Some ErrNoSegmentToConsume), e1)
    | Some nextSeg =>
        (Continue (State (Reader (Some nextSeg) (hwSeg rd) 0 (hwPos rd) (hw rd))
                     p1 (n + len bs) segs), e1)
    end).
  { intros nxt Hn. unfold readLoop_body. rewrite Hseg, Hread. simpl.
    rewrite len_store by exact Hok.
    destruct (Z.eqb_spec (n + len bs) (len p)) as [Heq | _]; [contradiction |].
    rewrite andb_false_r. rewrite Hn. reflexivity. }
  destruct (findSegmentByBaseOffset (log e) segs (wrap64 (BaseOffset (log e) s + 1)))
    as [nextSeg |] eqn:Hnext.
  - eexists _, _. rewrite (Hbody _ eq_refl). simpl. repeat split.
  - intros fuel. eexists _, _. rewrite readLoop_S, (Hbody _ eq_refl).
    simpl. reflexivity.
Qed.

(** C10: when an iteration gets as far as re-reading the high watermark,
    finds it changed and [getHWPos] fails for the new value, the error that
    [ReadAt] left is nil, and [readLoop] returns the byte count with that nil
    error: the error of [getHWPos] is dropped. *)
Theorem readLoop_drops_getHWPos_error (st : state) (e e' : env W) (s : ptr)
    (bs : list Byte.byte) (err : option error) (hw' : Z) (failure : error) :
  seg (r st) = Some s ->
  segment_read (log e) (r st) (p st) (n st) = Some (bs, err) ->
  hard_error err = false ->
  n st + len bs <> len (p st) ->
  negb (len bs =? 0) && is_nil err = false ->
  is_EOF err = false ->
  syncHW (hw (r st)) (log e) (CallReadAt s (pos (r st)) bs err :: calls e)
    (future e) = Synced hw' e' ->
  getHWPos (log e') (Segments (log e')) hw' = inl failure ->
  err = None
  /\ forall fuel, exists st',
       readLoop (S fuel) st e = (Returned (n st + len bs) None, st', e')
       /\ hw (r st') = hw'.
Proof.
  intros Hseg Hread Hhard Hfull Hprog Heof Hsync Hget.
  assert (Herr : err = None).
  { destruct err as [[] |]; simpl in *; congruence. }
  subst err. split; [reflexivity |].
  assert (Hz : (len bs =? 0) = true).
  { simpl in Hprog. rewrite andb_true_r in Hprog. by apply negb_false_iff. }
  destruct (segment_read_Some _ _ _ _ _ _ Hread) as (s0 & Hs0 & Hok & _).
  destruct st as [rd p n segs].
  cbn [Committed.r Committed.p Committed.n Committed.segments] in *.
  intros fuel. rewrite readLoop_S. unfold readLoop_body.
  rewrite Hseg, Hread. simpl.
  rewrite len_store by exact Hok.
  destruct (Z.eqb_spec (n + len bs) (len p)) as [Heq | _]; [contradiction |].
  rewrite Hz. simpl. rewrite Hsync, Hget. simpl.
  eexists. split; reflexivity.
Qed.

(** C1, amended: a reader built in waiting state does not depend on the
    offset it was asked for, and once the high watermark has moved its first
    [Read] runs the read loop from the position of the offset that follows the
    high watermark seen at construction. *)
Theorem waiting_reader_resumes_after_old_HW (w0 : W) (offset : Z)
    (rd : CommittedReader) :
  HighWatermark w0 < offset ->
  NewReaderCommitted w0 offset = Ok rd ->
  (forall offset', HighWatermark w0 < offset' ->
     NewReaderCommitted w0 offset' = Ok rd)
  /\ forall (fuel : nat) (p : list Byte.byte) (e e' : env W) (hw' : Z)
       (idx : nat) (hp : Z) (s' s : ptr) (i : nat) (entry : Entry),
       syncHW (HighWatermark w0) (log e) (calls e) (future e) = Synced hw' e' ->
       getHWPos (log e') (Segments (log e')) hw' = inr (idx, hp) ->
       Segments (log e') !! idx = Some s' ->
       findSegment (log e') (Segments (log e')) (wrap64 (HighWatermark w0 + 1))
         = Some (s, i) ->
       findEntry (log e') s (wrap64 (HighWatermark w0 + 1)) = inr entry ->
       Read fuel rd p e
       = readLoop fuel
           (State (Reader (Some s) (Some s') (Position entry) hp hw') p 0
              (Segments (log e')))
           e'.
Proof.
  intros Hlt Hnew. split.
  - intros offset' Hlt'.
    rewrite (NewReaderCommitted_forgets_offset w0 offset' offset) by assumption.
    exact Hnew.
  - intros fuel p e e' hw' idx hp s' s i entry Hsync Hget Hidx Hfind Hentry.
    destruct (NewReaderCommitted_waiting_hw w0 offset rd Hlt Hnew) as [Hseg Hhw].
    unfold Read, enter. rewrite Hseg, Hhw, Hsync. simpl.
    rewrite Hget, Hidx. simpl. rewrite Hfind, Hentry. reflexivity.
Qed.

End ReadLoopFacts.

(** ** The concrete log *)

Section ModelFacts.

Lemma model_ReadAt_bounded : ReadAt_bounded (API := model_API).
Proof.
  intros w s k pos Hk. simpl. unfold model_ReadAt.
  destruct (heap w !! s) as [sg |]; simpl; [| unfold len; simpl; lia].
  destruct (pos <? 0); simpl; [unfold len; simpl; lia |].
  unfold len. rewrite length_take. lia.
Qed.

(** The segment found for a base offset has that base offset. *)
Lemma model_findSegmentByBaseOffset_base (w : World) (segments : list ptr)
    (b : Z) (s : ptr) :
  model_findSegmentByBaseOffset w segments b = Some s -> base_of w s = b.
Proof.
  unfold model_findSegmentByBaseOffset. intros Hf.
  apply find_some in Hf. destruct Hf as [_ Hb]. by apply Z.eqb_eq.
Qed.

End ModelFacts.

Section IndexFacts.
Import Wire.

Lemma length_be_encode (k : nat) : forall z, length (be_encode k z) = k.
Proof.
  induction k as [| k IH]; intros z; simpl; [reflexivity |].
  rewrite length_app, IH. simpl. lia.
Qed.

Lemma len_frame (offset ts : Z) (payload : list Byte.byte) :
  len (frame offset ts payload) = 20 + len payload.
Proof.
  unfold frame, len. rewrite !length_app, !length_be_encode. lia.
Qed.

Lemma frames_app (ms1 ms2 : list message) :
  forall offset,
    frames offset (ms1 ++ ms2)
    = frames offset ms1 ++ frames (offset + Z.of_nat (length ms1)) ms2.
Proof.
  induction ms1 as [| m ms1 IH]; intros offset; cbn [frames app length].
  - f_equal. lia.
  - rewrite IH. rewrite <- app_assoc. do 3 f_equal. lia.
Qed.

(** An index entry found for an offset is the entry of the message at that
    offset: it starts where the frames of the earlier messages end and ends
    where its own frame ends. *)
Lemma index_find (ms : list message) :
  forall (offset pos0 o o' : Z) (e : Entry),
    List.find (fun oe => oe.1 =? o) (index offset pos0 ms) = Some (o', e) ->
    exists k : nat,
      o = offset + Z.of_nat k /\ (k < length ms)%nat
      /\ Position e + Size e = pos0 + len (frames offset (take (S k) ms)).
Proof.
  induction ms as [| m ms IH]; intros offset pos0 o o' e;
    cbn [index List.find fst]; [discriminate |].
  destruct (Z.eqb_spec offset o) as [-> | Hne].
  - intros [= <- <-]. exists 0%nat.
    cbn [take frames Position Size length].
    rewrite app_nil_r, len_frame. unfold frame_size. repeat split; lia.
  - intros Hf. destruct (IH _ _ _ _ _ Hf) as (k & -> & Hk & Hp).
    exists (S k). rewrite Hp.
    change (take (S (S k)) (m :: ms)) with (m :: take (S k) ms).
    cbn [frames length]. rewrite len_app, len_frame. unfold frame_size.
    repeat split; lia.
Qed.

(** A read of the concrete log that ends at or before the end of the record
    of offset [h] returns bytes of the framed records up to [h] only. *)
Lemma model_read_below_entry (w : World) (s : ptr) (sg : Segment) (h : Z)
    (e : Entry) (k pos : Z) :
  heap w !! s = Some sg ->
  model_findEntry w s h = inr e ->
  0 <= pos -> 0 <= k -> pos + k <= Position e + Size e ->
  (model_ReadAt w s k pos).1
  = take (Z.to_nat k)
      (drop (Z.to_nat pos)
         (frames (base sg) (take (Z.to_nat (h - base sg + 1)) (messages sg)))).
Proof.
  intros Hs He Hpos Hk Hend. unfold model_ReadAt, model_findEntry in *.
  rewrite Hs in *.
  destruct (List.find _ _) as [[o' e'] |] eqn:Hf; [| discriminate].
  injection He as ->.
  destruct (index_find _ _ _ _ _ _ Hf) as (i & -> & Hi & Hp).
  destruct (Z.ltb_spec pos 0) as [? | _]; [lia |]. simpl.
  replace (Z.to_nat (base sg + Z.of_nat i - base sg + 1)) with (S i) by lia.
  unfold bytes.
  rewrite <- (take_drop (S i) (messages sg)) at 1.
  rewrite frames_app.
  set (A := frames (base sg) (take (S i) (messages sg))) in *.
  assert (HA : (Z.to_nat pos + Z.to_nat k <= length A)%nat).
  { unfold len in Hp. lia. }
  rewrite drop_app_le by lia.
  rewrite take_app_le by (rewrite length_drop; lia).
  reflexivity.
Qed.

End IndexFacts.

Section ModelReadLoop.
Import Committed.

(** On the concrete log, with the HW cursor as [getHWPos] computes it, an
    iteration that reads from the HW segment copies bytes of the framed
    records with offsets up to the high watermark only. *)
Lemma model_read_is_committed (w : World) (rd : CommittedReader)
    (p : list Byte.byte) (n : Z) (bs : list Byte.byte) (err : option error)
    (s : ptr) (sg : Segment) (e : Entry) :
  seg rd = Some s -> hwSeg rd = Some s ->
  heap w !! s = Some sg ->
  model_findEntry w s (hw rd) = inr e ->
  hwPos rd = Position e + Size e ->
  0 <= pos rd < 2 ^ 63 ->
  0 <= hwPos rd < 2 ^ 63 ->
  segment_read w rd p n = Some (bs, err) ->
  bs = take (Z.to_nat (limit rd p - n))
         (drop (Z.to_nat (pos rd))
            (frames (base sg)
               (take (Z.to_nat (hw rd - base sg + 1)) (messages sg)))).
Proof.
  intros Hseg Hhw Hs He Hcur Hpos Hhwp Hread.
  destruct (segment_read_Some _ _ _ _ _ _ Hread) as (s0 & Hs0 & Hok & Hr).
  rewrite Hseg in Hs0. injection Hs0 as <-.
  apply slice_ok_spec in Hok. destruct Hok as (Hn & Hlim & _).
  assert (Hsame : same_segment (seg rd) (hwSeg rd) = true).
  { rewrite Hseg, Hhw. simpl. apply Nat.eqb_refl. }
  pose proof (limit_HW rd p Hsame) as Hl.
  rewrite wrap64_id in Hl by (unfold int64_range; lia).
  rewrite <- (model_read_below_entry w s sg (hw rd) e (limit rd p - n) (pos rd))
    by (try assumption; lia).
  simpl in Hr. rewrite Hr. reflexivity.
Qed.

End ModelReadLoop.

Lemma readLoop_read_below_HW_witness :
  let st := Committed.State (Committed.Reader (Some 0%nat) (Some 0%nat) 21 66 2)
              (buffer 72) 0 [0%nat] in
  exists st' e' bs err,
    Committed.readLoop_body st (Env s1 [] []) = (Continue st', e')
    /\ Committed.segment_read s1 (Committed.r st) (buffer 72) 0 = Some (bs, err)
    /\ Committed.n st' = 0 + len bs
    /\ len bs <= 66 - 21.
Proof.
  pose proof (readLoop_read_below_HW (API := model_API)
                (Committed.State
                   (Committed.Reader (Some 0%nat) (Some 0%nat) 21 66 2)
                   (buffer 72) 0 [0%nat])
                (Env s1 [] []) model_ReadAt_bounded eq_refl
                ltac:(simpl; lia) ltac:(simpl; lia)) as Hw.
  destruct (Committed.readLoop_body _ _) as [[st' | st' err' | | st'] e'] eqn:Hb;
    try (vm_compute in Hb; discriminate).
  destruct Hw as (bs & err & Hread & Hn & Hle & _).
  exists st', e', bs, err. repeat split; assumption.
Defined.

Lemma readLoop_end_of_segment_witness :
  let e := Env after_roll [] [] in
  let rd := Committed.Reader (Some 0%nat) (Some 1%nat) 21 22 1 in
  (exists st' e',
     Committed.readLoop_body (Committed.State rd (buffer 50) 0 [0%nat; 1%nat]) e
     = (Continue st', e')
     /\ Committed.seg (Committed.r st') = Some 1%nat
     /\ Committed.pos (Committed.r st') = 0
     /\ Committed.n st' = 0 + len [])
  /\ (forall fuel, exists st' e',
        Committed.readLoop (S fuel) (Committed.State rd (buffer 50) 0 [0%nat]) e
        = (Returned (0 + len []) (Some ErrNoSegmentToConsume), st', e')).
Proof.
  split.
  - exact (readLoop_end_of_segment (API := model_API)
             (Committed.State
                (Committed.Reader (Some 0%nat) (Some 1%nat) 21 22 1)
                (buffer 50) 0 [0%nat; 1%nat])
             (Env after_roll [] []) 0%nat []
             eq_refl ltac:(vm_compute; reflexivity) ltac:(vm_compute; discriminate)).
  - exact (readLoop_end_of_segment (API := model_API)
             (Committed.State
                (Committed.Reader (Some 0%nat) (Some 1%nat) 21 22 1)
                (buffer 50) 0 [0%nat])
             (Env after_roll [] []) 0%nat []
             eq_refl ltac:(vm_compute; reflexivity) ltac:(vm_compute; discriminate)).
Defined.

Lemma readLoop_drops_getHWPos_error_witness :
  let w := World_ (heap s1) (segs s1) 5 0 in
  let st := Committed.State (Committed.Reader (Some 0%nat) (Some 0%nat) 66 66 2)
              (buffer 10) 0 [0%nat] in
  Committed.getHWPos w (Segments w) 5 = inl (ErrOther "OffsetOutOfRange")
  /\ (Committed.readLoop 1 st (Env w [] [])).1.1 = Returned 0 None.
Proof.
  split; [vm_compute; reflexivity |].
  destruct (readLoop_drops_getHWPos_error (API := model_API)
              (Committed.State (Committed.Reader (Some 0%nat) (Some 0%nat) 66 66 2)
                 (buffer 10) 0 [0%nat])
              (Env (World_ (heap s1) (segs s1) 5 0) [] [])
              (Env (World_ (heap s1) (segs s1) 5 0) [] [CallReadAt 0%nat 66 [] None])
              0%nat [] None 5 (ErrOther "OffsetOutOfRange")
              eq_refl ltac:(vm_compute; reflexivity) eq_refl
              ltac:(vm_compute; discriminate) eq_refl eq_refl
              ltac:(vm_compute; reflexivity) ltac:(vm_compute; reflexivity))
    as [_ Hw].
  destruct (Hw 0%nat) as (st' & Hr & _).
  cbv zeta. rewrite Hr. reflexivity.
Defined.

(** C1, as stated, fails: the reader is asked for offset 100 while the high
    watermark is 10; when offsets up to 100 (or up to 150) are committed, its
    first [Read] delivers the framed record of offset 11. *)
Lemma waiting_reader_skips_requested_offset :
  exists rd,
    Committed.NewReaderCommitted (single 10 10) 100 = Ok rd
    /\ Committed.seg rd = None
    /\ (forall w', w' = single 100 100 \/ w' = single 150 150 ->
        let '(out, st, _) :=
          Committed.Read 1 rd (buffer 21) (Env (single 10 10) [Woken w'] []) in
        out = Returned 21 None
        /\ Committed.p st = Wire.frame 11 7 (str "x")
        /\ Committed.p st <> Wire.frame 100 7 (str "x")).
Proof.
  eexists. split; [vm_compute; reflexivity |]. split; [reflexivity |].
  intros w' [-> | ->]; vm_compute; repeat split; discriminate.
Qed.

Lemma waiting_reader_resumes_after_old_HW_witness :
  exists rd,
    Committed.NewReaderCommitted (single 10 10) 100 = Ok rd
    /\ Committed.Read 1 rd (buffer 21)
         (Env (single 10 10) [Woken (single 100 100)] [])
       = Committed.readLoop 1
           (Committed.State
              (Committed.Reader (Some 0%nat) (Some 0%nat) 231 2121 100)
              (buffer 21) 0 [0%nat])
           (Env (single 100 100) [] [CallWaitForHW 10]).
Proof.
  eexists. split; [vm_compute; reflexivity |].
  destruct (waiting_reader_resumes_after_old_HW (API := model_API)
              (single 10 10) 100 _
              ltac:(vm_compute; reflexivity) ltac:(vm_compute; reflexivity))
    as [_ Hw].
  exact (Hw 1%nat (buffer 21) (Env (single 10 10) [Woken (single 100 100)] [])
           (Env (single 100 100) [] [CallWaitForHW 10]) 100 0%nat 2121 0%nat
           0%nat 0%nat (Build_Entry 231 21)
           ltac:(vm_compute; reflexivity) ltac:(vm_compute; reflexivity)
           ltac:(vm_compute; reflexivity) ltac:(vm_compute; reflexivity)
           ltac:(vm_compute; reflexivity)).
Defined.

(** C9, evaluated on scenario S1 with the 72-byte buffer: the first
    iteration copies the 66 committed bytes; in the second one [lim] is
    [hwPos - pos = 0], below [n = 66], and the slice expression [p[n:lim]]
    panics. *)
Theorem Read_S1_slice_out_of_range :
  exists rd,
    Committed.NewReaderCommitted s1 0 = Ok rd
    /\ forall fuel,
         let '(out, st, _) := Committed.Read (S (S fuel)) rd (buffer 72) (Env s1 [] []) in
         out = Panicked
         /\ Committed.n st = 66
         /\ Committed.limit (Committed.r st) (Committed.p st) = 0
         /\ slice_ok (Committed.p st) (Committed.n st)
              (Committed.limit (Committed.r st) (Committed.p st)) = false.
Proof.
  eexists. split; [vm_compute; reflexivity |].
  intros fuel. unfold Committed.Read. cbn [Committed.seg].
  rewrite !readLoop_S. vm_compute. repeat split.
Qed.

(** ** UncommittedReader *)

Section UncommittedFacts.
Import Uncommitted.
Context {W : Type} {API : CommitLogAPI W}.

Lemma Read_loop_S (fuel : nat) (st : state) (e : env W) :
  Read_loop (S fuel) st e =
  match Read_body st e with
  | (Continue st, e) => Read_loop fuel st e
  | (Break st err, e) => (Returned (n st) err, st, e)
  | (Crash, e) => (Panicked, st, e)
  | (Park st, e) => (Parked, st, e)
  end.
Proof. reflexivity. Qed.

End UncommittedFacts.

Section UncommittedRoll.
Import Uncommitted.
Context {W : Type} {API : CommitLogAPI W}.

(** The two places where [Read] moves to the next segment: before any wait
    the position is reset to 0; after a wait without progress the position of
    the old segment is kept. *)
Lemma Read_body_next_segment (st : state) (e : env W) (bs : list Byte.byte)
    (nextSeg : ptr) :
  slice_ok (p st) (n st) (len (p st)) = true ->
  ReadAt (log e) (seg (r st)) (len (p st) - n st) (pos (r st))
    = (bs, Some io_EOF) ->
  n st + len bs <> len (p st) ->
  findSegmentByBaseOffset (log e)
    (if waiting st then Segments (log e) else segments st)
    (wrap64 (BaseOffset (log e) (seg (r st)) + 1)) = Some nextSeg ->
  exists st' e',
    Read_body st e = (Continue st', e')
    /\ seg (r st') = nextSeg
    /\ pos (r st') = if waiting st then wrap64 (pos (r st) + len bs) else 0.
Proof.
  destruct st as [rd p n segs waiting].
  cbn [Uncommitted.r Uncommitted.p Uncommitted.n Uncommitted.segments
       Uncommitted.waiting].
  intros Hok Hr Hfull Hnext. unfold Read_body. rewrite Hok, Hr. simpl.
  rewrite len_store by exact Hok.
  destruct (Z.eqb_spec (n + len bs) (len p)) as [? | _]; [contradiction |].
  rewrite andb_false_r.
  destruct waiting; simpl; rewrite Hnext; eexists _, _; repeat split.
Qed.

End UncommittedRoll.

(** C2, evaluated: a reader at offset 0 reads into a 50-byte buffer; it
    copies the record of offset 0 and parks at the end of the segment; the
    segment is rolled and offset 1 is appended to the next one.  On the
    iteration after the wake-up the reader moves to the next segment but keeps
    position 21, so of the 22 bytes of the record of offset 1 only the last
    one is delivered. *)
Theorem Read_roll_after_wait_keeps_position :
  exists rd,
    Uncommitted.NewReaderUncommitted before_roll 0 = Ok rd
    /\ (let '(_, st, _) :=
          Uncommitted.Read 2 rd (buffer 50)
            (Env before_roll [Woken after_roll; Cancelled] []) in
        Uncommitted.r st = Uncommitted.Reader 1%nat 21)
    /\ (let '(out, st, _) :=
          Uncommitted.Read 3 rd (buffer 50)
            (Env before_roll [Woken after_roll; Cancelled] []) in
        out = Returned 22 (Some io_EOF)
        /\ take 22 (Uncommitted.p st) = Wire.frame 0 1 (str "a") ++ str "b"
        /\ take 22 (Uncommitted.p st)
           <> take 22 (Wire.frame 0 1 (str "a") ++ Wire.frame 1 2 (str "bb"))).
Proof.
  eexists. split; [vm_compute; reflexivity |].
  split; vm_compute; repeat split; discriminate.
Qed.

(** ** Cancellation and close during a wait *)

Section DeliveredFacts.

Lemma delivered_nil (p : list Byte.byte) : delivered p 0 [].
Proof. unfold delivered, len. simpl. repeat split; lia. Qed.

Lemma delivered_store (p : list Byte.byte) (n hi : Z) (tr : list call)
    (s : ptr) (pos : Z) (bs : list Byte.byte) (err : option error) :
  delivered p n tr ->
  slice_ok p n hi = true ->
  len bs <= hi - n ->
  delivered (store p n hi bs) (n + len bs) (CallReadAt s pos bs err :: tr).
Proof.
  intros (Hn & Hc & Ht) Hok Hb.
  pose proof (proj1 (slice_ok_spec p n hi) Hok) as (H0 & H1 & H2).
  pose proof (len_nonneg bs) as Hbs.
  unfold delivered. rewrite len_store by exact Hok. simpl copied.
  rewrite len_app. repeat split; try lia.
  rewrite take_store by assumption. by rewrite Ht.
Qed.

Lemma delivered_copied (p : list Byte.byte) (n : Z) (tr tr' : list call) :
  copied tr' = copied tr -> delivered p n tr -> delivered p n tr'.
Proof. unfold delivered. intros ->. tauto. Qed.

End DeliveredFacts.

Section UncommittedCancel.
Import Uncommitted.
Context {W : Type} {API : CommitLogAPI W}.
Hypothesis HB : ReadAt_bounded.

Lemma await_next_segment_calls (fut : list (signal W)) :
  forall (rd : UncommittedReader) (w : W) (tr : list call),
    copied (calls (await_next_segment rd w tr fut).2) = copied tr
    /\ ((await_next_segment rd w tr fut).1 = None ->
        ended_by_cancellation (calls (await_next_segment rd w tr fut).2) = false).
Proof.
  induction fut as [| sig rest IH]; intros rd w tr; simpl.
  - split; reflexivity.
  - destruct sig as [| | w']; simpl; try (split; [reflexivity | discriminate]).
    destruct (IH rd w' (CallWaitForData (seg rd) (pos rd) :: tr)) as [Hc Hn].
    split; [rewrite Hc; reflexivity | exact Hn].
Qed.

Lemma Read_body_invariant (st : state) (e : env W) :
  delivered (p st) (n st) (calls e) ->
  ended_by_cancellation (calls e) = false ->
  match Read_body st e with
  | (Continue st', e') | (Park st', e') =>
      delivered (p st') (n st') (calls e')
      /\ ended_by_cancellation (calls e') = false
  | (Break st' err, e') =>
      delivered (p st') (n st') (calls e')
      /\ (ended_by_cancellation (calls e') = true -> err = Some io_EOF)
  | (Crash, e') => ended_by_cancellation (calls e') = false
  end.
Proof.
  destruct st as [rd p n segs waiting]. cbn [Uncommitted.p Uncommitted.n].
  intros Hd Hend. unfold Read_body.
  destruct (slice_ok p n (len p)) eqn:Hok; simpl; [| exact Hend].
  destruct (ReadAt (log e) (seg rd) (len p - n) (pos rd)) as [bs err] eqn:Hr.
  assert (Hb : len bs <= len p - n).
  { pose proof (HB (log e) (seg rd) (len p - n) (pos rd)) as Hb.
    rewrite Hr in Hb. apply Hb. apply slice_ok_spec in Hok. lia. }
  pose proof (delivered_store p n (len p) (calls e) (seg rd) (pos rd) bs err
                Hd Hok Hb) as Hd'.
  cbn [log future calls].
  destruct (hard_error err) eqn:Hhard.
  { split; [exact Hd' | discriminate]. }
  destruct (n + len bs =? len (store p n (len p) bs)) eqn:Hfull.
  { split; [exact Hd' | discriminate]. }
  destruct (negb (len bs =? 0) && is_nil err) eqn:Hprog.
  { split; [exact Hd' | reflexivity]. }
  destruct (is_EOF err && negb waiting) eqn:Heof.
  - destruct (findSegmentByBaseOffset _ _ _) as [nextSeg |].
    { split; [exact Hd' | reflexivity]. }
    destruct (hd_error (future e)) as [[| | w'] |]; simpl;
      (split; [apply (delivered_copied _ _ _ _ ltac:(reflexivity) Hd')
              | try reflexivity]).
  - destruct (findSegmentByBaseOffset _ _ _) as [nextSeg |].
    { split; [exact Hd' | reflexivity]. }
    pose proof (await_next_segment_calls (future e)
                  (Reader (seg rd) (wrap64 (pos rd + len bs))) (log e)
                  (CallReadAt (seg rd) (pos rd) bs err :: calls e)) as [Hc Hn].
    destruct (await_next_segment _ _ _ _) as [[woke |] e']; cbn [fst snd] in Hc, Hn.
    + split; [apply (delivered_copied _ _ _ _ Hc Hd') | reflexivity].
    + split; [apply (delivered_copied _ _ _ _ Hc Hd') | auto].
Qed.


Lemma Read_loop_invariant (fuel : nat) :
  forall (st : state) (e : env W),
    delivered (p st) (n st) (calls e) ->
    ended_by_cancellation (calls e) = false ->
    let '(out, st', e') := Read_loop fuel st e in
    ended_by_cancellation (calls e') = true ->
    out = Returned (n st') (Some io_EOF)
    /\ delivered (p st') (n st') (calls e').
Proof.
  induction fuel as [| fuel IH]; intros st e Hd Hend.
  - simpl. congruence.
  - rewrite Read_loop_S.
    pose proof (Read_body_invariant st e Hd Hend) as Hb.
    destruct (Read_body st e) as [[st' | st' err | | st'] e'].
    + destruct Hb as [Hd' Hend']. apply IH; assumption.
    + destruct Hb as [Hd' Herr]. intros Hc. rewrite (Herr Hc). auto.
    + congruence.
    + destruct Hb as [_ Hend']. congruence.
Qed.

Lemma Uncommitted_Read_cancelled (fuel : nat) (rd : UncommittedReader)
    (p : list Byte.byte) (w : W) (fut : list (signal W)) :
  let '(out, st', e') := Read fuel rd p (Env w fut []) in
  ended_by_cancellation (calls e') = true ->
  out = Returned (n st') (Some io_EOF)
  /\ delivered (Uncommitted.p st') (n st') (calls e').
Proof.
  unfold Read. apply Read_loop_invariant; [apply delivered_nil | reflexivity].
Qed.

End UncommittedCancel.

Section CommittedCancel.
Import Committed.
Context {W : Type} {API : CommitLogAPI W}.
Hypothesis HB : ReadAt_bounded.

Lemma syncHW_calls (fut : list (signal W)) :
  forall (r_hw : Z) (w : W) (tr : list call),
    ended_by_cancellation tr = false ->
    match syncHW r_hw w tr fut with
    | Synced _ e' | WaitForever e' =>
        copied (calls e') = copied tr
        /\ ended_by_cancellation (calls e') = false
    | WaitFalse e' => copied (calls e') = copied tr
    end.
Proof.
  induction fut as [| sig rest IH]; intros r_hw w tr Hend; simpl.
  - destruct (negb (HighWatermark w =? r_hw)); simpl; auto.
  - destruct (negb (HighWatermark w =? r_hw)); simpl; [auto |].
    destruct sig as [| | w']; simpl; try reflexivity.
    pose proof (IH r_hw w' (CallWaitForHW (HighWatermark w) :: tr) eq_refl) as Hs.
    destruct (syncHW r_hw w' _ rest); simpl in *; exact Hs.
Qed.

Lemma readLoop_body_invariant (st : state) (e : env W) :
  delivered (p st) (n st) (calls e) ->
  ended_by_cancellation (calls e) = false ->
  match readLoop_body st e with
  | (Continue st', e') =>
      delivered (p st') (n st') (calls e')
      /\ ended_by_cancellation (calls e') = false
  | (Break st' err, e') =>
      delivered (p st') (n st') (calls e')
      /\ (ended_by_cancellation (calls e') = true -> err = Some io_EOF)
  | (Park _, e') | (Crash, e') => ended_by_cancellation (calls e') = false
  end.
Proof.
  destruct st as [rd p n segs]. cbn [Committed.p Committed.n].
  intros Hd Hend. unfold readLoop_body.
  destruct (segment_read (log e) rd p n) as [[bs err] |] eqn:Hread;
    [| destruct (seg rd); exact Hend].
  destruct (segment_read_Some _ _ _ _ _ _ Hread) as (s & Hs & Hok & Hr).
  rewrite Hs.
  assert (Hb : len bs <= limit rd p - n).
  { pose proof (HB (log e) s (limit rd p - n) (pos rd)) as Hb.
    rewrite Hr in Hb. apply Hb. apply slice_ok_spec in Hok. lia. }
  pose proof (delivered_store p n (limit rd p) (calls e) s (pos rd) bs err
                Hd Hok Hb) as Hd'.
  cbn [log future calls Committed.seg Committed.hwSeg Committed.pos
       Committed.hwPos Committed.hw].
  destruct (hard_error err) eqn:Hhard.
  { split; [exact Hd' | discriminate]. }
  destruct (n + len bs =? len (store p n (limit rd p) bs)) eqn:Hfull.
  { split; [exact Hd' | discriminate]. }
  destruct (negb (len bs =? 0) && is_nil err) eqn:Hprog.
  { split; [exact Hd' | reflexivity]. }
  destruct (is_EOF err) eqn:Heof.
  { destruct (findSegmentByBaseOffset _ _ _) as [nextSeg |];
      (split; [exact Hd' | try reflexivity; discriminate]). }
  pose proof (syncHW_calls (future e) (hw rd) (log e)
                (CallReadAt s (pos rd) bs err :: calls e) eq_refl) as Hsync.
  destruct (syncHW _ _ _ _) as [hw' e' | e' | e'].
  - destruct Hsync as [Hc Hend'].
    destruct (getHWPos _ _ _) as [failure | [hwIdx hwPos']].
    { split; [apply (delivered_copied _ _ _ _ Hc Hd') | congruence]. }
    destruct (_ !! hwIdx) as [s' |]; [| exact Hend'].
    split; [apply (delivered_copied _ _ _ _ Hc Hd') | exact Hend'].
  - split; [apply (delivered_copied _ _ _ _ Hsync Hd') | reflexivity].
  - apply Hsync.
Qed.

Lemma readLoop_invariant (fuel : nat) :
  forall (st : state) (e : env W),
    delivered (p st) (n st) (calls e) ->
    ended_by_cancellation (calls e) = false ->
    let '(out, st', e') := readLoop fuel st e in
    ended_by_cancellation (calls e') = true ->
    out = Returned (n st') (Some io_EOF)
    /\ delivered (p st') (n st') (calls e').
Proof.
  induction fuel as [| fuel IH]; intros st e Hd Hend.
  - simpl. congruence.
  - rewrite readLoop_S.
    pose proof (readLoop_body_invariant st e Hd Hend) as Hb.
    destruct (readLoop_body st e) as [[st' | st' err | | st'] e'].
    + destruct Hb as [Hd' Hend']. apply IH; assumption.
    + destruct Hb as [Hd' Herr]. intros Hc. rewrite (Herr Hc). auto.
    + congruence.
    + congruence.
Qed.

Lemma Committed_Read_cancelled (fuel : nat) (rd : CommittedReader)
    (p : list Byte.byte) (w : W) (fut : list (signal W)) :
  let '(out, st', e') := Read fuel rd p (Env w fut []) in
  ended_by_cancellation (calls e') = true ->
  out = Returned (n st') (Some io_EOF)
  /\ delivered (Committed.p st') (n st') (calls e').
Proof.
  unfold Read. cbn [log future calls].
  destruct (seg rd) as [s |].
  { apply readLoop_invariant; [apply delivered_nil | reflexivity]. }
  unfold enter. cbn [log future calls].
  pose proof (syncHW_calls fut (hw rd) w [] eq_refl) as Hsync.
  destruct (syncHW (hw rd) w [] fut) as [hw' e' | e' | e'].
  - destruct Hsync as [Hc Hend'].
    destruct (getHWPos _ _ _) as [failure | [hwIdx hwPos']]; [congruence |].
    destruct (_ !! hwIdx) as [s' |]; [| congruence].
    cbn [Committed.seg Committed.hwSeg Committed.pos Committed.hwPos Committed.hw].
    destruct (findSegment _ _ _) as [[s i] |]; [| congruence].
    destruct (findEntry _ _ _) as [failure | entry]; [congruence |].
    apply readLoop_invariant; [| exact Hend'].
    apply (delivered_copied _ _ [] _ Hc). apply delivered_nil.
  - intros _. split; [reflexivity |].
    apply (delivered_copied _ _ [] _ Hsync). apply delivered_nil.
  - destruct Hsync as [_ Hend']. congruence.
Qed.

End CommittedCancel.

Section Signals.
Context {W : Type} {API : CommitLogAPI W}.

(** [used] signals, all of them wake-ups, were taken from [fut], leaving [fut']. *)
Lemma woken_only_not_cancelled (fut fut' used : list (signal W)) :
  fut = used ++ fut' -> Forall (fun sig => is_woken sig = true) used ->
  cancelled_in_wait fut fut' -> False.
Proof.
  intros -> Hall (before & sig & Heq & Hsig).
  change (sig :: fut') with ([sig] ++ fut') in Heq.
  rewrite app_assoc in Heq. apply app_inv_tail in Heq. subst used.
  apply Forall_app in Hall. destruct Hall as [_ Hall].
  apply Forall_inv in Hall. congruence.
Qed.

End Signals.

Section UncommittedSignals.
Import Uncommitted.
Context {W : Type} {API : CommitLogAPI W}.

Lemma await_next_segment_signals (fut : list (signal W)) :
  forall (rd : UncommittedReader) (w : W) (tr : list call),
    match await_next_segment rd w tr fut with
    | (None, e') =>
        exists used,
          fut = used ++ future e'
          /\ Forall (fun sig => is_woken sig = true) used
    | (Some _, e') => ended_by_cancellation (calls e') = true
    end.
Proof.
  induction fut as [| sig rest IH]; intros rd w tr; simpl.
  - exists []. split; [reflexivity | constructor].
  - destruct sig as [| | w']; simpl; try reflexivity.
    pose proof (IH rd w' (CallWaitForData (seg rd) (pos rd) :: tr)) as Hr.
    destruct (await_next_segment rd w' _ rest) as [[woke |] e']; [exact Hr |].
    destruct Hr as (used & Hu & Hall).
    exists (Woken w' :: used). split.
    + simpl. f_equal. exact Hu.
    + constructor; [reflexivity | exact Hall].
Qed.

Lemma Read_body_signals (st : state) (e : env W) :
  match Read_body st e with
  | (Break _ _, e') =>
      (exists used,
          future e = used ++ future e'
          /\ Forall (fun sig => is_woken sig = true) used)
      \/ ended_by_cancellation (calls e') = true
  | (Continue _, e') | (Park _, e') | (Crash, e') =>
      exists used,
        future e = used ++ future e'
        /\ Forall (fun sig => is_woken sig = true) used
  end.
Proof.
  assert (Hnone : exists used, future e = used ++ future e
                    /\ Forall (fun sig : signal W => is_woken sig = true) used).
  { exists []. split; [reflexivity | constructor]. }
  destruct st as [rd p n segs waiting]. unfold Read_body.
  destruct (slice_ok p n (len p)); simpl; [| exact Hnone].
  destruct (ReadAt (log e) (seg rd) (len p - n) (pos rd)) as [bs err].
  cbn [log future calls].
  destruct (hard_error err); [left; exact Hnone |].
  destruct (_ =? len _); [left; exact Hnone |].
  destruct (negb _ && is_nil err); [exact Hnone |].
  destruct (is_EOF err && negb waiting).
  - destruct (findSegmentByBaseOffset _ _ _); [exact Hnone |].
    destruct (future e) as [| [| | w'] rest]; simpl;
      try (right; reflexivity).
    + exists []. split; [reflexivity | constructor].
    + exists [Woken w']. split; [reflexivity | repeat constructor].
  - destruct (findSegmentByBaseOffset _ _ _); [exact Hnone |].
    pose proof (await_next_segment_signals (future e)
                  (Reader (seg rd) (wrap64 (pos rd + len bs))) (log e)
                  (CallReadAt (seg rd) (pos rd) bs err :: calls e)) as Hs.
    destruct (await_next_segment _ _ _ _) as [[woke |] e'];
      [right; exact Hs | exact Hs].
Qed.

Lemma Read_loop_signals (fuel : nat) :
  forall (st : state) (e : env W),
    (exists used,
        future e = used ++ future (Read_loop fuel st e).2
        /\ Forall (fun sig => is_woken sig = true) used)
    \/ ended_by_cancellation (calls (Read_loop fuel st e).2) = true.
Proof.
  induction fuel as [| fuel IH]; intros st e.
  - left. exists []. split; [reflexivity | constructor].
  - rewrite Read_loop_S.
    pose proof (Read_body_signals st e) as Hb.
    destruct (Read_body st e) as [[st' | st' err | | st'] e'];
      cbn [snd] in *; try (left; exact Hb); try exact Hb.
    destruct Hb as (used & Hu & Hall).
    destruct (IH st' e') as [(used' & Hu' & Hall') | Hend]; [| right; exact Hend].
    left. exists (used ++ used'). split.
    + rewrite Hu, Hu' at 1. by rewrite app_assoc.
    + apply Forall_app. auto.
Qed.

End UncommittedSignals.

Section CommittedSignals.
Import Committed.
Context {W : Type} {API : CommitLogAPI W}.

Lemma syncHW_signals (fut : list (signal W)) :
  forall (r_hw : Z) (w : W) (tr : list call),
    match syncHW r_hw w tr fut with
    | Synced _ e' | WaitForever e' =>
        exists used,
          fut = used ++ future e'
          /\ Forall (fun sig => is_woken sig = true) used
    | WaitFalse e' => ended_by_cancellation (calls e') = true
    end.
Proof.
  induction fut as [| sig rest IH]; intros r_hw w tr; simpl.
  - destruct (negb (HighWatermark w =? r_hw)); simpl;
      exists []; split; (reflexivity || constructor).
  - destruct (negb (HighWatermark w =? r_hw)); simpl.
    { exists []. split; [reflexivity | constructor]. }
    destruct sig as [| | w']; simpl; try reflexivity.
    pose proof (IH r_hw w' (CallWaitForHW (HighWatermark w) :: tr)) as Hr.
    destruct (syncHW r_hw w' _ rest) as [hw' e' | e' | e']; [| exact Hr |];
      destruct Hr as (used & Hu & Hall);
      (exists (Woken w' :: used); split;
       [simpl; f_equal; exact Hu | constructor; [reflexivity | exact Hall]]).
Qed.

Lemma readLoop_body_signals (st : state) (e : env W) :
  match readLoop_body st e with
  | (Break _ _, e') =>
      (exists used,
          future e = used ++ future e'
          /\ Forall (fun sig => is_woken sig = true) used)
      \/ ended_by_cancellation (calls e') = true
  | (Continue _, e') | (Park _, e') | (Crash, e') =>
      exists used,
        future e = used ++ future e'
        /\ Forall (fun sig => is_woken sig = true) used
  end.
Proof.
  assert (Hnone : exists used, future e = used ++ future e
                    /\ Forall (fun sig : signal W => is_woken sig = true) used).
  { exists []. split; [reflexivity | constructor]. }
  destruct st as [rd p n segs]. unfold readLoop_body.
  destruct (seg rd) as [s |]; [| exact Hnone].
  destruct (segment_read (log e) rd p n) as [[bs err] |]; [| exact Hnone].
  cbn [log future calls].
  destruct (hard_error err); [left; exact Hnone |].
  destruct (_ =? len _); [left; exact Hnone |].
  destruct (negb _ && is_nil err); [exact Hnone |].
  destruct (is_EOF err).
  { destruct (findSegmentByBaseOffset _ _ _); [| left]; exact Hnone. }
  pose proof (syncHW_signals (future e) (hw rd) (log e)
                (CallReadAt s (pos rd) bs err :: calls e)) as Hs.
  destruct (syncHW _ _ _ _) as [hw' e' | e' | e'];
    [| right; exact Hs | exact Hs].
  destruct (getHWPos _ _ _) as [failure | [hwIdx hwPos']]; [left; exact Hs |].
  destruct (_ !! hwIdx); exact Hs.
Qed.

Lemma readLoop_signals (fuel : nat) :
  forall (st : state) (e : env W),
    (exists used,
        future e = used ++ future (readLoop fuel st e).2
        /\ Forall (fun sig => is_woken sig = true) used)
    \/ ended_by_cancellation (calls (readLoop fuel st e).2) = true.
Proof.
  induction fuel as [| fuel IH]; intros st e.
  - left. exists []. split; [reflexivity | constructor].
  - rewrite readLoop_S.
    pose proof (readLoop_body_signals st e) as Hb.
    destruct (readLoop_body st e) as [[st' | st' err | | st'] e'];
      cbn [snd] in *; try (left; exact Hb); try exact Hb.
    destruct Hb as (used & Hu & Hall).
    destruct (IH st' e') as [(used' & Hu' & Hall') | Hend]; [| right; exact Hend].
    left. exists (used ++ used'). split.
    + rewrite Hu, Hu' at 1. by rewrite app_assoc.
    + apply Forall_app. auto.
Qed.

Lemma Committed_Read_signals (fuel : nat) (rd : CommittedReader)
    (p : list Byte.byte) (e : env W) :
  (exists used,
      future e = used ++ future (Read fuel rd p e).2
      /\ Forall (fun sig => is_woken sig = true) used)
  \/ ended_by_cancellation (calls (Read fuel rd p e).2) = true.
Proof.
  unfold Read. destruct (seg rd) as [s |]; [apply readLoop_signals |].
  unfold enter.
  pose proof (syncHW_signals (future e) (hw rd) (log e) (calls e)) as Hs.
  destruct (syncHW _ _ _ _) as [hw' e' | e' | e'];
    [| right; exact Hs | left; exact Hs].
  destruct (getHWPos _ _ _) as [failure | [hwIdx hwPos']]; [left; exact Hs |].
  destruct (_ !! hwIdx) as [s' |]; [| left; exact Hs].
  cbn [Committed.seg Committed.hwSeg Committed.pos Committed.hwPos Committed.hw].
  destruct (findSegment _ _ _) as [[s i] |]; [| left; exact Hs].
  destruct (findEntry _ _ _) as [failure | entry]; [left; exact Hs |].
  destruct Hs as (used & Hu & Hall).
  destruct (readLoop_signals fuel
              (State (Reader (Some s) (Some s') (Position entry) hwPos' hw') p 0
                 (Segments (log e'))) e')
    as [(used' & Hu' & Hall') | Hend]; [| right; exact Hend].
  left. exists (used ++ used'). split.
  + rewrite Hu, Hu' at 1. by rewrite app_assoc.
  + apply Forall_app. auto.
Qed.

End CommittedSignals.

(** ** A blocked call and the signal that ends it *)

Section UncommittedExtend.
Import Uncommitted.
Context {W : Type} {API : CommitLogAPI W}.

(** A parked wait loop that then receives the close or the cancellation. *)
Lemma await_next_segment_cancel (fut : list (signal W)) :
  forall (rd : UncommittedReader) (w : W) (tr : list call) (e' : env W),
    await_next_segment rd w tr fut = (None, e') ->
    forall (sig : signal W) (rest : list (signal W)),
      is_woken sig = false ->
      await_next_segment rd w tr (fut ++ sig :: rest)
      = (Some false, Env (log e') rest (CallRemoveWaiter (seg rd) :: calls e')).
Proof.
  induction fut as [| sig0 fut IH]; intros rd w tr e'; simpl.
  - intros [= <-] sig rest Hs. destruct sig; [reflexivity | reflexivity | discriminate].
  - destruct sig0 as [| | w']; simpl; try discriminate. apply IH.
Qed.

Lemma Read_body_more_signals (st st' : state) (w : W)
    (fut : list (signal W)) (tr : list call) (e' : env W) :
  Read_body st (Env w fut tr) = (Continue st', e') ->
  forall ext : list (signal W),
    Read_body st (Env w (fut ++ ext) tr)
    = (Continue st', Env (log e') (future e' ++ ext) (calls e')).
Proof.
  destruct st as [rd p n segs waiting]. unfold Read_body.
  destruct (slice_ok p n (len p)); cbn [negb]; [| discriminate].
  cbn [log future calls].
  destruct (ReadAt w (seg rd) (len p - n) (pos rd)) as [bs err].
  destruct (hard_error err); [discriminate |].
  destruct (_ =? len _); [discriminate |].
  destruct (negb _ && is_nil err); [intros [= <- <-]; reflexivity |].
  destruct (is_EOF err && negb waiting).
  - destruct (findSegmentByBaseOffset _ _ _); [intros [= <- <-]; reflexivity |].
    destruct fut as [| [| | w'] rest]; simpl; try discriminate.
    intros [= <- <-]. reflexivity.
  - destruct (findSegmentByBaseOffset _ _ _); [intros [= <- <-]; reflexivity |].
    destruct (await_next_segment _ _ _ _) as [[woke |] e1]; discriminate.
Qed.

Lemma Read_body_cancel_when_parked (st st' : state) (w : W)
    (fut : list (signal W)) (tr : list call) (e' : env W) :
  Read_body st (Env w fut tr) = (Park st', e') ->
  forall (sig : signal W) (rest : list (signal W)),
    is_woken sig = false ->
    Read_body st (Env w (fut ++ sig :: rest) tr)
    = (Break st' (Some io_EOF),
       Env (log e') rest (CallRemoveWaiter (seg (r st')) :: calls e')).
Proof.
  destruct st as [rd p n segs waiting]. unfold Read_body.
  destruct (slice_ok p n (len p)); cbn [negb]; [| discriminate].
  cbn [log future calls].
  destruct (ReadAt w (seg rd) (len p - n) (pos rd)) as [bs err].
  destruct (hard_error err); [discriminate |].
  destruct (_ =? len _); [discriminate |].
  destruct (negb _ && is_nil err); [discriminate |].
  destruct (is_EOF err && negb waiting).
  - destruct (findSegmentByBaseOffset _ _ _); [discriminate |].
    destruct fut as [| [| | w'] rest0]; simpl; try discriminate.
    intros [= <- <-] sig rest Hs.
    destruct sig; [reflexivity | reflexivity | discriminate].
  - destruct (findSegmentByBaseOffset _ _ _); [discriminate |].
    destruct (await_next_segment _ _ _ fut) as [[woke |] e1] eqn:Ha;
      [discriminate |].
    intros [= <- <-] sig rest Hs.
    rewrite (await_next_segment_cancel _ _ _ _ _ Ha sig rest Hs).
    reflexivity.
Qed.

Lemma Read_loop_cancel_when_parked (fuel : nat) :
  forall (st st' : state) (w : W) (fut : list (signal W)) (tr : list call)
         (e' : env W),
    Read_loop fuel st (Env w fut tr) = (Parked, st', e') ->
    forall (sig : signal W) (rest : list (signal W)),
      is_woken sig = false ->
      Read_loop fuel st (Env w (fut ++ sig :: rest) tr)
      = (Returned (n st') (Some io_EOF), st',
         Env (log e') rest (CallRemoveWaiter (seg (r st')) :: calls e')).
Proof.
  induction fuel as [| fuel IH]; intros st st' w fut tr e'; [discriminate |].
  rewrite Read_loop_S.
  destruct (Read_body st (Env w fut tr)) as [[st1 | st1 err | | st1] e1] eqn:Hb.
  - intros Hrun sig rest Hs.
    rewrite Read_loop_S, (Read_body_more_signals _ _ _ _ _ _ Hb (sig :: rest)).
    destruct e1 as [w1 fut1 tr1]. apply (IH _ _ _ _ _ _ Hrun sig rest Hs).
  - discriminate.
  - discriminate.
  - intros [= <- <-] sig rest Hs.
    rewrite Read_loop_S, (Read_body_cancel_when_parked _ _ _ _ _ _ Hb sig rest Hs).
    reflexivity.
Qed.

End UncommittedExtend.

Section CommittedExtend.
Import Committed.
Context {W : Type} {API : CommitLogAPI W}.

Lemma syncHW_more_signals (fut : list (signal W)) :
  forall (r_hw : Z) (w : W) (tr : list call) (hw' : Z) (e' : env W),
    syncHW r_hw w tr fut = Synced hw' e' ->
    forall ext : list (signal W),
      syncHW r_hw w tr (fut ++ ext)
      = Synced hw' (Env (log e') (future e' ++ ext) (calls e')).
Proof.
  induction fut as [| sig0 fut IH]; intros r_hw w tr hw' e'; simpl.
  - destruct (negb (HighWatermark w =? r_hw)) eqn:Hne; [| discriminate].
    intros [= <- <-] ext. destruct ext; simpl; rewrite Hne; reflexivity.
  - destruct (negb (HighWatermark w =? r_hw)); [intros [= <- <-]; reflexivity |].
    destruct sig0 as [| | w']; simpl; try discriminate. apply IH.
Qed.

Lemma syncHW_cancel_when_parked (fut : list (signal W)) :
  forall (r_hw : Z) (w : W) (tr : list call) (e' : env W),
    syncHW r_hw w tr fut = WaitForever e' ->
    forall (sig : signal W) (rest : list (signal W)),
      is_woken sig = false ->
      syncHW r_hw w tr (fut ++ sig :: rest)
      = WaitFalse (Env (log e') rest (CallRemoveHWWaiter :: calls e')).
Proof.
  induction fut as [| sig0 fut IH]; intros r_hw w tr e'; simpl.
  - destruct (negb (HighWatermark w =? r_hw)); [discriminate |].
    intros [= <-] sig rest Hs.
    destruct sig; [reflexivity | reflexivity | discriminate].
  - destruct (negb (HighWatermark w =? r_hw)); [discriminate |].
    destruct sig0 as [| | w']; simpl; try discriminate. apply IH.
Qed.

Lemma readLoop_body_more_signals (st st' : state) (w : W)
    (fut : list (signal W)) (tr : list call) (e' : env W) :
  readLoop_body st (Env w fut tr) = (Continue st', e') ->
  forall ext : list (signal W),
    readLoop_body st (Env w (fut ++ ext) tr)
    = (Continue st', Env (log e') (future e' ++ ext) (calls e')).
Proof.
  destruct st as [rd p n segs]. unfold readLoop_body.
  cbn [log future calls].
  destruct (seg rd) as [s |]; [| discriminate].
  destruct (segment_read w rd p n) as [[bs err] |]; [| discriminate].
  destruct (hard_error err); [discriminate |].
  destruct (_ =? len _); [discriminate |].
  destruct (negb _ && is_nil err); [intros [= <- <-]; reflexivity |].
  destruct (is_EOF err).
  { destruct (findSegmentByBaseOffset _ _ _); [| discriminate].
    intros [= <- <-]. reflexivity. }
  destruct (syncHW _ _ _ fut) as [hw' e1 | e1 | e1] eqn:Hs; try discriminate.
  intros Hrun ext. rewrite (syncHW_more_signals _ _ _ _ _ _ Hs ext).
  cbn [log future calls].
  destruct (getHWPos _ _ _) as [failure | [hwIdx hwPos']]; [discriminate |].
  destruct (_ !! hwIdx) as [s' |]; [| discriminate].
  injection Hrun as <- <-. reflexivity.
Qed.

Lemma readLoop_body_cancel_when_parked (st st' : state) (w : W)
    (fut : list (signal W)) (tr : list call) (e' : env W) :
  readLoop_body st (Env w fut tr) = (Park st', e') ->
  forall (sig : signal W) (rest : list (signal W)),
    is_woken sig = false ->
    readLoop_body st (Env w (fut ++ sig :: rest) tr)
    = (Break st' (Some io_EOF),
       Env (log e') rest (CallRemoveHWWaiter :: calls e')).
Proof.
  destruct st as [rd p n segs]. unfold readLoop_body.
  cbn [log future calls].
  destruct (seg rd) as [s |]; [| discriminate].
  destruct (segment_read w rd p n) as [[bs err] |]; [| discriminate].
  destruct (hard_error err); [discriminate |].
  destruct (_ =? len _); [discriminate |].
  destruct (negb _ && is_nil err); [discriminate |].
  destruct (is_EOF err).
  { destruct (findSegmentByBaseOffset _ _ _); discriminate. }
  destruct (syncHW _ _ _ fut) as [hw' e1 | e1 | e1] eqn:Hs.
  - destruct (getHWPos _ _ _) as [failure | [hwIdx hwPos']]; [discriminate |].
    destruct (_ !! hwIdx) as [s' |]; discriminate.
  - discriminate.
  - intros [= <- <-] sig rest Hsig.
    rewrite (syncHW_cancel_when_parked _ _ _ _ _ Hs sig rest Hsig).
    reflexivity.
Qed.

Lemma readLoop_cancel_when_parked (fuel : nat) :
  forall (st st' : state) (w : W) (fut : list (signal W)) (tr : list call)
         (e' : env W),
    readLoop fuel st (Env w fut tr) = (Parked, st', e') ->
    forall (sig : signal W) (rest : list (signal W)),
      is_woken sig = false ->
      readLoop fuel st (Env w (fut ++ sig :: rest) tr)
      = (Returned (n st') (Some io_EOF), st',
         Env (log e') rest (CallRemoveHWWaiter :: calls e')).
Proof.
  induction fuel as [| fuel IH]; intros st st' w fut tr e'; [discriminate |].
  rewrite readLoop_S.
  destruct (readLoop_body st (Env w fut tr)) as [[st1 | st1 err | | st1] e1] eqn:Hb.
  - intros Hrun sig rest Hs.
    rewrite readLoop_S, (readLoop_body_more_signals _ _ _ _ _ _ Hb (sig :: rest)).
    destruct e1 as [w1 fut1 tr1]. apply (IH _ _ _ _ _ _ Hrun sig rest Hs).
  - discriminate.
  - discriminate.
  - intros [= <- <-] sig rest Hs.
    rewrite readLoop_S,
      (readLoop_body_cancel_when_parked _ _ _ _ _ _ Hb sig rest Hs).
    reflexivity.
Qed.

Lemma Committed_Read_cancel_when_parked (fuel : nat) (rc : CommittedReader)
    (p : list Byte.byte) (w : W) (fut : list (signal W)) (tr : list call)
    (st : state) (e : env W) :
  Read fuel rc p (Env w fut tr) = (Parked, st, e) ->
  forall (sig : signal W) (rest : list (signal W)),
    is_woken sig = false ->
    Read fuel rc p (Env w (fut ++ sig :: rest) tr)
    = (Returned (n st) (Some io_EOF), st,
       Env (log e) rest (CallRemoveHWWaiter :: calls e)).
Proof.
  unfold Read. cbn [log future calls].
  destruct (seg rc) as [s |]; [apply readLoop_cancel_when_parked |].
  unfold enter. cbn [log future calls].
  destruct (syncHW (hw rc) w tr fut) as [hw' e1 | e1 | e1] eqn:Hs.
  - intros Hrun sig rest Hsig.
    rewrite (syncHW_more_signals _ _ _ _ _ _ Hs (sig :: rest)).
    cbn [log future calls].
    destruct (getHWPos _ _ _) as [failure | [hwIdx hwPos']]; [discriminate |].
    destruct (_ !! hwIdx) as [s' |]; [| discriminate].
    cbn [Committed.seg Committed.hwSeg Committed.pos Committed.hwPos
         Committed.hw] in *.
    destruct (findSegment _ _ _) as [[s i] |]; [| discriminate].
    destruct (findEntry _ _ _) as [failure | entry]; [discriminate |].
    destruct e1 as [w1 fut1 tr1].
    apply (readLoop_cancel_when_parked _ _ _ _ _ _ _ Hrun sig rest Hsig).
  - discriminate.
  - intros [= <- <-] sig rest Hsig.
    rewrite (syncHW_cancel_when_parked _ _ _ _ _ Hs sig rest Hsig).
    reflexivity.
Qed.

End CommittedExtend.

Section UncommittedParked.
Import Uncommitted.
Context {W : Type} {API : CommitLogAPI W}.

(** A wait parks only once every signal of the script has been received. *)
Lemma await_next_segment_parks_last (fut : list (signal W)) :
  forall (rd : UncommittedReader) (w : W) (tr : list call) (e' : env W),
    await_next_segment rd w tr fut = (None, e') -> future e' = [].
Proof.
  induction fut as [| sig0 fut IH]; intros rd w tr e'; simpl.
  - intros [= <-]. reflexivity.
  - destruct sig0 as [| | w']; simpl; try discriminate. apply IH.
Qed.

Lemma Read_body_parks_last (st st' : state) (e e' : env W) :
  Read_body st e = (Park st', e') -> future e' = [].
Proof.
  destruct st as [rd p n segs waiting]. unfold Read_body.
  destruct (slice_ok p n (len p)); cbn [negb]; [| discriminate].
  destruct (ReadAt (log e) (seg rd) (len p - n) (pos rd)) as [bs err].
  cbn [log future calls].
  destruct (hard_error err); [discriminate |].
  destruct (_ =? len _); [discriminate |].
  destruct (negb _ && is_nil err); [discriminate |].
  destruct (is_EOF err && negb waiting).
  - destruct (findSegmentByBaseOffset _ _ _); [discriminate |].
    destruct (future e) as [| [| | w'] rest0]; simpl; try discriminate.
    intros [= <- <-]. reflexivity.
  - destruct (findSegmentByBaseOffset _ _ _); [discriminate |].
    destruct (await_next_segment _ _ _ _) as [[woke |] e1] eqn:Ha;
      [discriminate |].
    intros [= <- <-]. exact (await_next_segment_parks_last _ _ _ _ _ Ha).
Qed.

Lemma Read_loop_parks_last (fuel : nat) :
  forall (st st' : state) (e e' : env W),
    Read_loop fuel st e = (Parked, st', e') -> future e' = [].
Proof.
  induction fuel as [| fuel IH]; intros st st' e e'; [discriminate |].
  rewrite Read_loop_S.
  destruct (Read_body st e) as [[st1 | st1 err | | st1] e1] eqn:Hb.
  - apply IH.
  - discriminate.
  - discriminate.
  - intros [= <- <-]. exact (Read_body_parks_last _ _ _ _ Hb).
Qed.

End UncommittedParked.

Section CommittedParked.
Import Committed.
Context {W : Type} {API : CommitLogAPI W}.

Lemma syncHW_parks_last (fut : list (signal W)) :
  forall (r_hw : Z) (w : W) (tr : list call) (e' : env W),
    syncHW r_hw w tr fut = WaitForever e' -> future e' = [].
Proof.
  induction fut as [| sig0 fut IH]; intros r_hw w tr e'; simpl.
  - destruct (negb (HighWatermark w =? r_hw)); [discriminate |].
    intros [= <-]. reflexivity.
  - destruct (negb (HighWatermark w =? r_hw)); [discriminate |].
    destruct sig0 as [| | w']; simpl; try discriminate. apply IH.
Qed.

Lemma readLoop_body_parks_last (st st' : state) (e e' : env W) :
  readLoop_body st e = (Park st', e') -> future e' = [].
Proof.
  destruct st as [rd p n segs]. unfold readLoop_body.
  destruct (seg rd) as [s |]; [| discriminate].
  destruct (segment_read (log e) rd p n) as [[bs err] |]; [| discriminate].
  cbn [log future calls].
  destruct (hard_error err); [discriminate |].
  destruct (_ =? len _); [discriminate |].
  destruct (negb _ && is_nil err); [discriminate |].
  destruct (is_EOF err).
  { destruct (findSegmentByBaseOffset _ _ _); discriminate. }
  destruct (syncHW _ _ _ _) as [hw' e1 | e1 | e1] eqn:Hs.
  - destruct (getHWPos _ _ _) as [failure | [hwIdx hwPos']]; [discriminate |].
    destruct (_ !! hwIdx) as [s' |]; discriminate.
  - discriminate.
  - intros [= <- <-]. exact (syncHW_parks_last _ _ _ _ _ Hs).
Qed.

Lemma readLoop_parks_last (fuel : nat) :
  forall (st st' : state) (e e' : env W),
    readLoop fuel st e = (Parked, st', e') -> future e' = [].
Proof.
  induction fuel as [| fuel IH]; intros st st' e e'; [discriminate |].
  rewrite readLoop_S.
  destruct (readLoop_body st e) as [[st1 | st1 err | | st1] e1] eqn:Hb.
  - apply IH.
  - discriminate.
  - discriminate.
  - intros [= <- <-]. exact (readLoop_body_parks_last _ _ _ _ Hb).
Qed.

Lemma Committed_Read_parks_last (fuel : nat) (rc : CommittedReader)
    (p : list Byte.byte) (e : env W) (st : state) (e' : env W) :
  Read fuel rc p e = (Parked, st, e') -> future e' = [].
Proof.
  unfold Read.
  destruct (seg rc) as [s |]; [apply readLoop_parks_last |].
  unfold enter.
  destruct (syncHW (hw rc) _ _ _) as [hw' e1 | e1 | e1] eqn:Hs.
  - destruct (getHWPos _ _ _) as [failure | [hwIdx hwPos']]; [discriminate |].
    destruct (_ !! hwIdx) as [s' |]; [| discriminate].
    cbn [Committed.seg Committed.hwSeg Committed.pos Committed.hwPos
         Committed.hw].
    destruct (findSegment _ _ _) as [[s i] |]; [| discriminate].
    destruct (findEntry _ _ _) as [failure | entry]; [discriminate |].
    apply readLoop_parks_last.
  - discriminate.
  - intros [= <- <-]. exact (syncHW_parks_last _ _ _ _ _ Hs).
Qed.

End CommittedParked.

(** C5: for both readers, a [Read] call that is blocked in a wait (it has
    received every signal sent so far, none of them the close of the log or
    the cancellation of the context, and is parked) returns [(n, io.EOF)] as
    soon as the close or the cancellation fires, whatever is sent after it:
    [n] and the buffer are those of the blocked call, [n] counts the bytes
    read before the signal and the first [n] bytes of the buffer are those
    bytes in order, and the reader deregisters on the way out.  A call never
    parks while a signal is pending.  More generally, whenever the last signal
    that a wait of a call received is the close or the cancellation, the call
    returns [(n, io.EOF)] with the same guarantee on the buffer. *)
Theorem Read_cancelled_returns_EOF {W : Type} {API : CommitLogAPI W}
    (fuel : nat) (ru : Uncommitted.UncommittedReader)
    (rc : Committed.CommittedReader) (p : list Byte.byte) (w : W)
    (fut : list (signal W)) :
  ReadAt_bounded ->
  (forall (st : Uncommitted.state) (e : env W),
     Uncommitted.Read fuel ru p (Env w fut []) = (Parked, st, e) ->
     future e = []
     /\ delivered (Uncommitted.p st) (Uncommitted.n st) (calls e)
     /\ forall (sig : signal W) (rest : list (signal W)),
          is_woken sig = false ->
          Uncommitted.Read fuel ru p (Env w (fut ++ sig :: rest) [])
          = (Returned (Uncommitted.n st) (Some io_EOF), st,
             Env (log e) rest
               (CallRemoveWaiter (Uncommitted.seg (Uncommitted.r st))
                :: calls e)))
  /\ (forall (st : Committed.state) (e : env W),
        Committed.Read fuel rc p (Env w fut []) = (Parked, st, e) ->
        future e = []
        /\ delivered (Committed.p st) (Committed.n st) (calls e)
        /\ forall (sig : signal W) (rest : list (signal W)),
             is_woken sig = false ->
             Committed.Read fuel rc p (Env w (fut ++ sig :: rest) [])
             = (Returned (Committed.n st) (Some io_EOF), st,
                Env (log e) rest (CallRemoveHWWaiter :: calls e)))
  /\ (let '(out, st, e) := Uncommitted.Read fuel ru p (Env w fut []) in
      cancelled_in_wait fut (future e) ->
      out = Returned (Uncommitted.n st) (Some io_EOF)
      /\ delivered (Uncommitted.p st) (Uncommitted.n st) (calls e))
  /\ (let '(out, st, e) := Committed.Read fuel rc p (Env w fut []) in
      cancelled_in_wait fut (future e) ->
      out = Returned (Committed.n st) (Some io_EOF)
      /\ delivered (Committed.p st) (Committed.n st) (calls e)).
Proof.
  intros HB. split; [| split; [| split]].
  - intros st e Hrun.
    split; [exact (Read_loop_parks_last _ _ _ _ _ Hrun) |].
    pose proof (Read_loop_cancel_when_parked fuel _ _ _ _ _ _ Hrun Closed []
                  eq_refl) as Hret.
    split.
    + pose proof (Uncommitted_Read_cancelled HB fuel ru p w (fut ++ [Closed]))
        as Hend.
      unfold Uncommitted.Read in Hend. cbn [log] in Hend.
      unfold Uncommitted.Read in Hret. cbn [log] in Hret.
      rewrite Hret in Hend. destruct (Hend eq_refl) as [_ Hd].
      exact (delivered_copied _ _ _ _ eq_refl Hd).
    + intros sig rest Hsig.
      exact (Read_loop_cancel_when_parked fuel _ _ _ _ _ _ Hrun sig rest Hsig).
  - intros st e Hrun.
    split; [exact (Committed_Read_parks_last _ _ _ _ _ _ Hrun) |].
    pose proof (Committed_Read_cancel_when_parked fuel rc p w fut [] st e Hrun
                  Closed [] eq_refl) as Hret.
    split.
    + pose proof (Committed_Read_cancelled HB fuel rc p w (fut ++ [Closed]))
        as Hend.
      rewrite Hret in Hend. destruct (Hend eq_refl) as [_ Hd].
      exact (delivered_copied _ _ _ _ eq_refl Hd).
    + intros sig rest Hsig.
      exact (Committed_Read_cancel_when_parked fuel rc p w fut [] st e Hrun
               sig rest Hsig).
  - pose proof (Uncommitted_Read_cancelled HB fuel ru p w fut) as Hend.
    pose proof (Read_loop_signals fuel
                  (Uncommitted.State ru p 0 (Segments w) false) (Env w fut []))
      as Hsig.
    unfold Uncommitted.Read in *. cbn [log future] in *.
    destruct (Uncommitted.Read_loop fuel _ _) as [[out st] e]. cbn [snd] in Hsig.
    intros Hc. destruct Hsig as [(used & Hu & Hall) | Hcalls]; [| auto].
    destruct (woken_only_not_cancelled _ _ _ Hu Hall Hc).
  - pose proof (Committed_Read_cancelled HB fuel rc p w fut) as Hend.
    pose proof (Committed_Read_signals fuel rc p (Env w fut [])) as Hsig.
    destruct (Committed.Read fuel rc p _) as [[out st] e].
    cbn [snd future] in Hsig.
    intros Hc. destruct Hsig as [(used & Hu & Hall) | Hcalls]; [| auto].
    destruct (woken_only_not_cancelled _ _ _ Hu Hall Hc).
Qed.

Lemma Read_cancelled_returns_EOF_witness :
  ReadAt_bounded (API := model_API)
  /\ (Uncommitted.Read 2 (Uncommitted.Reader 0%nat 0) (buffer 50)
        (Env before_roll [Woken before_roll] [])).1.1
     = Parked
  /\ (Uncommitted.Read 2 (Uncommitted.Reader 0%nat 0) (buffer 50)
        (Env before_roll [Woken before_roll; Cancelled; Woken after_roll] [])).1.1
     = Returned 21 (Some io_EOF)
  /\ (Committed.Read 1 (Committed.Reader (Some 0%nat) (Some 0%nat) 66 66 2)
        (buffer 50) (Env s1 [] [])).1.1
     = Parked
  /\ (Committed.Read 1 (Committed.Reader (Some 0%nat) (Some 0%nat) 66 66 2)
        (buffer 50) (Env s1 [Closed; Woken s1] [])).1.1
     = Returned 0 (Some io_EOF)
  /\ (Uncommitted.Read 1 (Uncommitted.Reader 0%nat 0) (buffer 50)
        (Env before_roll [Cancelled] [])).1.1
     = Returned 21 (Some io_EOF)
  /\ (Committed.Read 1 (Committed.Reader (Some 0%nat) (Some 0%nat) 66 66 2)
        (buffer 50) (Env s1 [Closed] [])).1.1
     = Returned 0 (Some io_EOF).
Proof.
  split; [exact model_ReadAt_bounded |].
  split; [vm_compute; reflexivity |].
  split.
  { destruct (Read_cancelled_returns_EOF (API := model_API) 2
                (Uncommitted.Reader 0%nat 0)
                (Committed.Reader (Some 0%nat) (Some 0%nat) 66 66 2)
                (buffer 50) before_roll [Woken before_roll]
                model_ReadAt_bounded) as (Hu & _ & _ & _).
    destruct (Uncommitted.Read 2 (Uncommitted.Reader 0%nat 0) (buffer 50)
                (Env before_roll [Woken before_roll] []))
      as [[out st] e] eqn:Hrun in Hu.
    assert (Hout : out = Parked)
      by (vm_compute in Hrun; injection Hrun as <- _ _; reflexivity).
    subst out. destruct (Hu st e eq_refl) as (_ & _ & Hret).
    change [Woken before_roll; Cancelled; Woken after_roll]
      with ([Woken before_roll] ++ Cancelled :: [Woken after_roll]).
    rewrite (Hret Cancelled [Woken after_roll] eq_refl).
    vm_compute in Hrun. injection Hrun as <- <-. reflexivity. }
  split; [vm_compute; reflexivity |].
  split.
  { destruct (Read_cancelled_returns_EOF (API := model_API) 1
                (Uncommitted.Reader 0%nat 0)
                (Committed.Reader (Some 0%nat) (Some 0%nat) 66 66 2)
                (buffer 50) s1 [] model_ReadAt_bounded) as (_ & Hc & _ & _).
    destruct (Committed.Read 1
                (Committed.Reader (Some 0%nat) (Some 0%nat) 66 66 2)
                (buffer 50) (Env s1 [] []))
      as [[out st] e] eqn:Hrun in Hc.
    assert (Hout : out = Parked)
      by (vm_compute in Hrun; injection Hrun as <- _ _; reflexivity).
    subst out. destruct (Hc st e eq_refl) as (_ & _ & Hret).
    change [Closed; Woken s1] with ([] ++ Closed :: [Woken s1]).
    rewrite (Hret Closed [Woken s1] eq_refl).
    vm_compute in Hrun. injection Hrun as <- <-. reflexivity. }
  split.
  - destruct (Read_cancelled_returns_EOF (API := model_API) 1
                (Uncommitted.Reader 0%nat 0)
                (Committed.Reader (Some 0%nat) (Some 0%nat) 66 66 2)
                (buffer 50) before_roll [Cancelled] model_ReadAt_bounded)
      as (_ & _ & Hw & _).
    destruct (Uncommitted.Read 1 _ _ _) as [[out st] e] eqn:Hrun.
    vm_compute in Hrun. injection Hrun as <- <- <-.
    destruct Hw as [Hout _];
      [exists [], Cancelled; split; reflexivity | exact Hout].
  - destruct (Read_cancelled_returns_EOF (API := model_API) 1
                (Uncommitted.Reader 0%nat 0)
                (Committed.Reader (Some 0%nat) (Some 0%nat) 66 66 2)
                (buffer 50) s1 [Closed] model_ReadAt_bounded)
      as (_ & _ & _ & Hw).
    destruct (Committed.Read 1 _ _ _) as [[out st] e] eqn:Hrun.
    vm_compute in Hrun. injection Hrun as <- <- <-.
    destruct Hw as [Hout _];
      [exists [], Closed; split; reflexivity | exact Hout].
Defined.

(** ** Deregistration over a whole call *)

Section RemovalFacts.

Lemma no_removal_deregisters_last_only (tr : list call) :
  Forall (fun c => is_removal c = false) tr -> deregisters_last_only tr.
Proof.
  destruct tr as [| c older]; [done |]. intros Hall.
  pose proof (Forall_inv Hall) as Hc. apply Forall_inv_tail in Hall.
  split; [exact Hall |]. destruct c; try exact I; discriminate.
Qed.

End RemovalFacts.

Section UncommittedRemovals.
Import Uncommitted.
Context {W : Type} {API : CommitLogAPI W}.

Lemma await_next_segment_removals (fut : list (signal W)) :
  forall (rd : UncommittedReader) (w : W) (tr : list call),
    Forall (fun c => is_removal c = false) tr ->
    match await_next_segment rd w tr fut with
    | (None, e') => Forall (fun c => is_removal c = false) (calls e')
    | (Some _, e') => deregisters_last_only (calls e')
    end.
Proof.
  induction fut as [| sig rest IH]; intros rd w tr Hall; simpl.
  - by constructor.
  - destruct sig as [| | w']; simpl.
    + split; [by constructor | by eexists _, _].
    + split; [by constructor | by eexists _, _].
    + apply IH. by constructor.
Qed.

Lemma Read_body_removals (st : state) (e : env W) :
  Forall (fun c => is_removal c = false) (calls e) ->
  match Read_body st e with
  | (Break _ _, e') => deregisters_last_only (calls e')
  | (Continue _, e') | (Park _, e') | (Crash, e') =>
      Forall (fun c => is_removal c = false) (calls e')
  end.
Proof.
  intros Hall. destruct st as [rd p n segs waiting]. unfold Read_body.
  destruct (slice_ok p n (len p)); cbn [negb]; [| exact Hall].
  destruct (ReadAt (log e) (seg rd) (len p - n) (pos rd)) as [bs err].
  assert (Hall' : Forall (fun c => is_removal c = false)
                    (CallReadAt (seg rd) (pos rd) bs err :: calls e))
    by (by constructor).
  cbn [log future calls].
  destruct (hard_error err); [by apply no_removal_deregisters_last_only |].
  destruct (_ =? len _); [by apply no_removal_deregisters_last_only |].
  destruct (negb _ && is_nil err); [exact Hall' |].
  destruct (is_EOF err && negb waiting).
  - destruct (findSegmentByBaseOffset _ _ _); [exact Hall' |].
    destruct (hd_error (future e)) as [[| | w'] |]; simpl.
    + split; [by constructor | by eexists _, _].
    + split; [by constructor | by eexists _, _].
    + by constructor.
    + by constructor.
  - destruct (findSegmentByBaseOffset _ _ _); [exact Hall' |].
    pose proof (await_next_segment_removals (future e)
                  (Reader (seg rd) (wrap64 (pos rd + len bs))) (log e) _ Hall')
      as Ha.
    destruct (await_next_segment _ _ _ _) as [[woke |] e']; exact Ha.
Qed.

Lemma Read_loop_removals (fuel : nat) :
  forall (st : state) (e : env W),
    Forall (fun c => is_removal c = false) (calls e) ->
    deregisters_last_only (calls (Read_loop fuel st e).2).
Proof.
  induction fuel as [| fuel IH]; intros st e Hall.
  - by apply no_removal_deregisters_last_only.
  - rewrite Read_loop_S.
    pose proof (Read_body_removals st e Hall) as Hb.
    destruct (Read_body st e) as [[st' | st' err | | st'] e']; cbn [snd].
    + by apply IH.
    + exact Hb.
    + by apply no_removal_deregisters_last_only.
    + by apply no_removal_deregisters_last_only.
Qed.

End UncommittedRemovals.

Section CommittedRemovals.
Import Committed.
Context {W : Type} {API : CommitLogAPI W}.

Lemma syncHW_removals (fut : list (signal W)) :
  forall (r_hw : Z) (w : W) (tr : list call),
    Forall (fun c => is_removal c = false) tr ->
    match syncHW r_hw w tr fut with
    | Synced _ e' | WaitForever e' =>
        Forall (fun c => is_removal c = false) (calls e')
    | WaitFalse e' => deregisters_last_only (calls e')
    end.
Proof.
  induction fut as [| sig rest IH]; intros r_hw w tr Hall; simpl.
  - destruct (negb (HighWatermark w =? r_hw)); simpl; [exact Hall | by constructor].
  - destruct (negb (HighWatermark w =? r_hw)); simpl; [exact Hall |].
    destruct sig as [| | w']; simpl.
    + split; [by constructor | by eexists _, _].
    + split; [by constructor | by eexists _, _].
    + apply IH. by constructor.
Qed.

Lemma readLoop_body_removals (st : state) (e : env W) :
  Forall (fun c => is_removal c = false) (calls e) ->
  match readLoop_body st e with
  | (Break _ _, e') => deregisters_last_only (calls e')
  | (Continue _, e') | (Park _, e') | (Crash, e') =>
      Forall (fun c => is_removal c = false) (calls e')
  end.
Proof.
  intros Hall. destruct st as [rd p n segs]. unfold readLoop_body.
  destruct (seg rd) as [s |]; [| exact Hall].
  destruct (segment_read (log e) rd p n) as [[bs err] |]; [| exact Hall].
  assert (Hall' : Forall (fun c => is_removal c = false)
                    (CallReadAt s (pos rd) bs err :: calls e))
    by (by constructor).
  cbn [log future calls].
  destruct (hard_error err); [by apply no_removal_deregisters_last_only |].
  destruct (_ =? len _); [by apply no_removal_deregisters_last_only |].
  destruct (negb _ && is_nil err); [exact Hall' |].
  destruct (is_EOF err).
  { destruct (findSegmentByBaseOffset _ _ _);
      [exact Hall' | by apply no_removal_deregisters_last_only]. }
  pose proof (syncHW_removals (future e) (hw rd) (log e) _ Hall') as Hs.
  destruct (syncHW _ _ _ _) as [hw' e' | e' | e']; try exact Hs.
  destruct (getHWPos _ _ _) as [failure | [hwIdx hwPos']];
    [by apply no_removal_deregisters_last_only |].
  destruct (_ !! hwIdx); exact Hs.
Qed.

Lemma readLoop_removals (fuel : nat) :
  forall (st : state) (e : env W),
    Forall (fun c => is_removal c = false) (calls e) ->
    deregisters_last_only (calls (readLoop fuel st e).2).
Proof.
  induction fuel as [| fuel IH]; intros st e Hall.
  - by apply no_removal_deregisters_last_only.
  - rewrite readLoop_S.
    pose proof (readLoop_body_removals st e Hall) as Hb.
    destruct (readLoop_body st e) as [[st' | st' err | | st'] e']; cbn [snd].
    + by apply IH.
    + exact Hb.
    + by apply no_removal_deregisters_last_only.
    + by apply no_removal_deregisters_last_only.
Qed.

Lemma Committed_Read_removals (fuel : nat) (rc : CommittedReader)
    (p : list Byte.byte) (e : env W) :
  Forall (fun c => is_removal c = false) (calls e) ->
  deregisters_last_only (calls (Read fuel rc p e).2).
Proof.
  intros Hall. unfold Read.
  destruct (seg rc) as [s |]; [by apply readLoop_removals |].
  unfold enter.
  pose proof (syncHW_removals (future e) (hw rc) (log e) _ Hall) as Hs.
  destruct (syncHW _ _ _ _) as [hw' e' | e' | e']; cbn [snd];
    [| exact Hs | by apply no_removal_deregisters_last_only].
  destruct (getHWPos _ _ _) as [failure | [hwIdx hwPos']];
    [by apply no_removal_deregisters_last_only |].
  destruct (_ !! hwIdx) as [s' |]; [| by apply no_removal_deregisters_last_only].
  cbn [Committed.seg Committed.hwSeg Committed.pos Committed.hwPos Committed.hw].
  destruct (findSegment _ _ _) as [[s i] |];
    [| by apply no_removal_deregisters_last_only].
  destruct (findEntry _ _ _) as [failure | entry];
    [by apply no_removal_deregisters_last_only |].
  by apply readLoop_removals.
Qed.

End CommittedRemovals.

Section WaiterSets.

Lemma after_calls_keeps_data (me : nat) (s : ptr) (pos : Z) (ws : waiters)
    (tr : list call) :
  Forall (fun c => is_removal c = false) tr ->
  In (CallWaitForData s pos) tr ->
  (s, me) ∈ on_data (after_calls me tr ws).
Proof.
  induction tr as [| c older IH]; intros Hall Hin; [destruct Hin |].
  pose proof (Forall_inv Hall) as Hc. apply Forall_inv_tail in Hall.
  change (after_calls me (c :: older) ws)
    with (after_call me c (after_calls me older ws)).
  destruct Hin as [-> | Hin]; [simpl; set_solver |].
  specialize (IH Hall Hin).
  destruct c; simpl; try discriminate; set_solver.
Qed.

Lemma after_calls_keeps_hw (me : nat) (hw : Z) (ws : waiters)
    (tr : list call) :
  Forall (fun c => is_removal c = false) tr ->
  In (CallWaitForHW hw) tr ->
  me ∈ on_hw (after_calls me tr ws).
Proof.
  induction tr as [| c older IH]; intros Hall Hin; [destruct Hin |].
  pose proof (Forall_inv Hall) as Hc. apply Forall_inv_tail in Hall.
  change (after_calls me (c :: older) ws)
    with (after_call me c (after_calls me older ws)).
  destruct Hin as [-> | Hin]; [simpl; set_solver |].
  specialize (IH Hall Hin).
  destruct c; simpl; try discriminate; set_solver.
Qed.

End WaiterSets.

(** C8, amended: on the close and the cancellation exit of a wait the reader
    calls [removeWaiter] on the segment it waited on (resp. [removeHWWaiter])
    right after it registered, which takes that registration back; on a
    satisfied wake-up it returns true without any deregistration call of its
    own, so that, as far as the reader's calls go, the registration stays.
    Deregistering twice is the same as deregistering once.  Over a whole
    [Read] call of either reader a deregistration is made at most once, as
    the last call, directly after the registration it takes back.  A blocked
    call that receives the close or the cancellation makes exactly that one
    more call: the reader is then no waiter of the segment it waited on
    (resp. no high-watermark waiter), while the registrations that earlier,
    satisfied waits of the call left on other segments are not taken back by
    the reader. *)
Theorem wait_exit_deregistration {W : Type} {API : CommitLogAPI W}
    (ru : Uncommitted.UncommittedReader) (rc : Committed.CommittedReader)
    (s : ptr) (hw : Z) (sig : signal W) (w : W) (tr : list call)
    (me : nat) (ws : waiters)
    (fuel : nat) (p : list Byte.byte) (fut : list (signal W)) :
  match sig with
  | Woken w' =>
      Uncommitted.waitForData ru s (Some sig) w tr
        = (Some true, w', CallWaitForData s (Uncommitted.pos ru) :: tr)
      /\ ((s, me) ∈ on_data
            (after_calls me (Uncommitted.waitForData ru s (Some sig) w tr).2 ws))
      /\ Committed.waitForHW hw (Some sig) w tr
        = (Some true, w', CallWaitForHW hw :: tr)
      /\ (me ∈ on_hw
            (after_calls me (Committed.waitForHW hw (Some sig) w tr).2 ws))
  | _ =>
      Uncommitted.waitForData ru s (Some sig) w tr
        = (Some false, w,
           CallRemoveWaiter s :: CallWaitForData s (Uncommitted.pos ru) :: tr)
      /\ ((s, me) ∉ on_data
            (after_calls me (Uncommitted.waitForData ru s (Some sig) w tr).2 ws))
      /\ Committed.waitForHW hw (Some sig) w tr
        = (Some false, w, CallRemoveHWWaiter :: CallWaitForHW hw :: tr)
      /\ (me ∉ on_hw
            (after_calls me (Committed.waitForHW hw (Some sig) w tr).2 ws))
  end
  /\ removeWaiter s me (removeWaiter s me ws) = removeWaiter s me ws
  /\ removeHWWaiter me (removeHWWaiter me ws) = removeHWWaiter me ws
  /\ deregisters_last_only
       (calls (Uncommitted.Read fuel ru p (Env w fut [])).2)
  /\ deregisters_last_only
       (calls (Committed.Read fuel rc p (Env w fut [])).2)
  /\ (forall (st : Uncommitted.state) (e : env W) (stop : signal W)
             (rest : list (signal W)),
        Uncommitted.Read fuel ru p (Env w fut []) = (Parked, st, e) ->
        is_woken stop = false ->
        exists (pos : Z) (older : list call),
          calls e
          = CallWaitForData (Uncommitted.seg (Uncommitted.r st)) pos :: older
          /\ calls (Uncommitted.Read fuel ru p
                      (Env w (fut ++ stop :: rest) [])).2
             = CallRemoveWaiter (Uncommitted.seg (Uncommitted.r st)) :: calls e
          /\ ((Uncommitted.seg (Uncommitted.r st), me) ∉ on_data
                (after_calls me
                   (calls (Uncommitted.Read fuel ru p
                             (Env w (fut ++ stop :: rest) [])).2) ws))
          /\ forall (s' : ptr) (pos' : Z),
               s' <> Uncommitted.seg (Uncommitted.r st) ->
               In (CallWaitForData s' pos') older ->
               (s', me) ∈ on_data
                 (after_calls me
                    (calls (Uncommitted.Read fuel ru p
                              (Env w (fut ++ stop :: rest) [])).2) ws))
  /\ (forall (st : Committed.state) (e : env W) (stop : signal W)
             (rest : list (signal W)),
        Committed.Read fuel rc p (Env w fut []) = (Parked, st, e) ->
        is_woken stop = false ->
        exists (hw0 : Z) (older : list call),
          calls e = CallWaitForHW hw0 :: older
          /\ calls (Committed.Read fuel rc p
                      (Env w (fut ++ stop :: rest) [])).2
             = CallRemoveHWWaiter :: calls e
          /\ (me ∉ on_hw
                (after_calls me
                   (calls (Committed.Read fuel rc p
                             (Env w (fut ++ stop :: rest) [])).2) ws))).
Proof.
  split; [| split; [| split; [| split; [| split; [| split]]]]].
  - destruct sig as [| | w']; simpl;
      repeat split; try reflexivity; set_solver.
  - apply removeWaiter_idempotent.
  - apply removeHWWaiter_idempotent.
  - apply Read_loop_removals. constructor.
  - apply Committed_Read_removals. constructor.
  - intros st e stop rest Hrun Hstop.
    unfold Uncommitted.Read in *. cbn [log] in *.
    pose proof (Read_loop_cancel_when_parked fuel _ _ _ _ _ _ Hrun stop rest
                  Hstop) as Hret.
    pose proof (Read_loop_removals fuel
                  (Uncommitted.State ru p 0 (Segments w) false)
                  (Env w (fut ++ stop :: rest) []) ltac:(constructor)) as Hshape.
    rewrite Hret in Hshape |- *. cbn [snd calls] in Hshape |- *.
    destruct Hshape as [Hall (pos & older & Hcalls)].
    exists pos, older. split; [exact Hcalls |]. split; [reflexivity |].
    split.
    + change (after_calls me (?c :: ?t) ws)
        with (after_call me c (after_calls me t ws)).
      simpl. set_solver.
    + intros s' pos' Hne Hin.
      change (after_calls me (?c :: ?t) ws)
        with (after_call me c (after_calls me t ws)).
      assert (Hk : (s', me) ∈ on_data (after_calls me (calls e) ws)).
      { apply (after_calls_keeps_data me s' pos' ws _ Hall).
        rewrite Hcalls. right. exact Hin. }
      simpl. set_solver.
  - intros st e stop rest Hrun Hstop.
    pose proof (Committed_Read_cancel_when_parked fuel rc p w fut [] st e Hrun
                  stop rest Hstop) as Hret.
    pose proof (Committed_Read_removals fuel rc p
                  (Env w (fut ++ stop :: rest) []) ltac:(constructor)) as Hshape.
    rewrite Hret in Hshape |- *. cbn [snd calls] in Hshape |- *.
    destruct Hshape as [Hall (hw0 & older & Hcalls)].
    exists hw0, older. split; [exact Hcalls |]. split; [reflexivity |].
    change (after_calls me (?c :: ?t) ws)
      with (after_call me c (after_calls me t ws)).
    simpl. set_solver.
Qed.

Lemma wait_exit_deregistration_witness :
  (Uncommitted.Read 3 (Uncommitted.Reader 0%nat 0) (buffer 50)
     (Env before_roll [Woken after_roll] [])).1.1
  = Parked
  /\ ((1%nat, 7%nat) ∉ on_data
        (after_calls 7
           (calls (Uncommitted.Read 3 (Uncommitted.Reader 0%nat 0) (buffer 50)
                     (Env before_roll [Woken after_roll; Cancelled] [])).2)
           (Waiters ∅ ∅)))
  /\ ((0%nat, 7%nat) ∈ on_data
        (after_calls 7
           (calls (Uncommitted.Read 3 (Uncommitted.Reader 0%nat 0) (buffer 50)
                     (Env before_roll [Woken after_roll; Cancelled] [])).2)
           (Waiters ∅ ∅))).
Proof.
  split; [vm_compute; reflexivity |].
  destruct (wait_exit_deregistration (API := model_API)
              (Uncommitted.Reader 0%nat 0)
              (Committed.Reader None None (-1) (-1) (-1))
              0%nat 0 Closed before_roll [] 7%nat (Waiters ∅ ∅)
              3 (buffer 50) [Woken after_roll])
    as (_ & _ & _ & _ & _ & Hu & _).
  destruct (Uncommitted.Read 3 (Uncommitted.Reader 0%nat 0) (buffer 50)
              (Env before_roll [Woken after_roll] []))
    as [[out st] e] eqn:Hrun in Hu.
  vm_compute in Hrun. injection Hrun as <- <- <-.
  destruct (Hu _ _ Cancelled [] eq_refl eq_refl)
    as (pos & older & Hcalls & _ & Hout & Hkept).
  cbn [Uncommitted.r Uncommitted.seg calls] in Hcalls, Hout, Hkept.
  injection Hcalls as <- <-.
  split; [exact Hout |].
  apply (Hkept 0%nat 21); [discriminate |].
  right. right. left. reflexivity.
Defined.

(** * Further properties of the readers and the decoder *)

Section WireFacts.
Import Wire Decoder.





End WireFacts.

Section DecoderRoundTrip.
Import Wire Decoder.




Lemma parse_header_None (h : list Byte.byte) :
  parse_header h = None <-> (length h < 20)%nat.
Proof.
  unfold parse_header, from, Uint64, Uint32.
  repeat match goal with
         | |- context [(?a <=? ?b)%nat] =>
             destruct (Nat.leb_spec a b); cbn [mbind option_bind option_ret mret]
         end;
    rewrite ?length_drop in *; split; intros; (discriminate || lia || reflexivity).
Qed.

(** X2: when the header [Read] reports no error, [ReadMessage] panics
    exactly when [headersBuf] is shorter than 20 bytes: the header fields are
    read from [headersBuf[0:]], [headersBuf[8:]] and [headersBuf[16:]]
    whatever the number of bytes the [Read] delivered. *)
Theorem ReadMessage_panics_iff_short_header {S : Type} (rd : Reader S)
    (reader : S) (headersBuf : list Byte.byte) :
  (rd reader (length headersBuf)).2 = None ->
  (ReadMessage (RD := rd) reader headersBuf).1.1 = Panic
  <-> (length headersBuf < 20)%nat.
Proof.
  intros Hok. unfold ReadMessage, io_Read.
  destruct (rd reader (length headersBuf)) as [[reader1 got] err].
  simpl in Hok. subst err.
  rewrite <- (length_fill headersBuf got), <- parse_header_None.
  destruct (parse_header (fill headersBuf got)) as [[[offset timestamp] size] |];
    [| by split].
  destruct (rd reader1 _) as [[reader2 got2] [e |]]; simpl; split; discriminate.
Qed.

End DecoderRoundTrip.

Section StoreFacts.

(** A store through [p[lo:hi]] of bytes that fit replaces exactly the bytes
    from [lo] on, as many as were stored. *)
Lemma store_eq (p : list Byte.byte) (lo hi : Z) (bs : list Byte.byte) :
  slice_ok p lo hi = true -> len bs <= hi - lo ->
  store p lo hi bs
  = take (Z.to_nat lo) p ++ bs ++ drop (Z.to_nat (lo + len bs)) p.
Proof.
  rewrite slice_ok_spec. unfold len, store, fill. intros (H0 & H1 & H2) Hb.
  f_equal.
  set (q := take (Z.to_nat (hi - lo)) (drop (Z.to_nat lo) p)).
  assert (Hq : length q = Z.to_nat (hi - lo)).
  { unfold q. rewrite length_take, length_drop. lia. }
  rewrite take_ge by (rewrite length_app, length_drop; lia).
  rewrite <- app_assoc. f_equal.
  unfold q. rewrite skipn_firstn_comm, drop_drop.
  replace (Z.to_nat lo + length bs)%nat
    with (Z.to_nat (lo + Z.of_nat (length bs))) by lia.
  set (m := Z.to_nat (lo + Z.of_nat (length bs))).
  replace (Z.to_nat hi) with (m + (Z.to_nat (hi - lo) - length bs))%nat by lia.
  rewrite <- drop_drop. apply take_drop.
Qed.

Lemma drop_store (p : list Byte.byte) (lo hi : Z) (bs : list Byte.byte) :
  slice_ok p lo hi = true -> len bs <= hi - lo ->
  drop (Z.to_nat (lo + len bs)) (store p lo hi bs)
  = drop (Z.to_nat (lo + len bs)) p.
Proof.
  intros Hok Hb. rewrite store_eq by assumption.
  apply slice_ok_spec in Hok. destruct Hok as (H0 & H1 & H2).
  unfold len in *. rewrite app_assoc.
  apply drop_app_length'.
  rewrite length_app, length_take. lia.
Qed.

Lemma store_whole (p bs : list Byte.byte) :
  len bs = len p -> store p 0 (len p) bs = bs.
Proof.
  intros Hl. rewrite store_eq.
  - simpl. rewrite drop_ge, app_nil_r; [reflexivity | unfold len in *; lia].
  - apply slice_ok_spec. pose proof (len_nonneg p). lia.
  - lia.
Qed.

End StoreFacts.

Section BufferFacts.

Lemma drop_agree_later (a b : list Byte.byte) (i j : nat) :
  (i <= j)%nat -> drop i a = drop i b -> drop j a = drop j b.
Proof.
  intros Hij Hd. replace j with (i + (j - i))%nat by lia.
  by rewrite <- !drop_drop, Hd.
Qed.

End BufferFacts.

Section UncommittedContract.
Import Uncommitted.
Context {W : Type} {API : CommitLogAPI W}.

(** What one iteration does to the buffer and the count. *)
Lemma Read_body_buffer (st : state) (e : env W) :
  ReadAt_bounded ->
  0 <= n st <= len (p st) ->
  match Read_body st e with
  | (Crash, _) => False
  | (Continue st', _) | (Break st' _, _) | (Park st', _) =>
      length (p st') = length (p st)
      /\ n st <= n st' <= len (p st)
      /\ drop (Z.to_nat (n st')) (p st') = drop (Z.to_nat (n st')) (p st)
  end.
Proof.
  intros HB Hn. destruct st as [rd p n segs waiting].
  cbn [Uncommitted.p Uncommitted.n] in *. unfold Read_body.
  assert (Hok : slice_ok p n (len p) = true) by (apply slice_ok_spec; lia).
  rewrite Hok. cbn [negb].
  pose proof (HB (log e) (seg rd) (len p - n) (pos rd) ltac:(lia)) as Hb.
  destruct (ReadAt (log e) (seg rd) (len p - n) (pos rd)) as [bs err].
  cbn [fst] in Hb. pose proof (len_nonneg bs) as Hbs.
  assert (Hfacts :
    length (store p n (len p) bs) = length p
    /\ n <= n + len bs <= len p
    /\ drop (Z.to_nat (n + len bs)) (store p n (len p) bs)
       = drop (Z.to_nat (n + len bs)) p).
  { split; [by apply length_store |]. split; [lia |]. by apply drop_store. }
  cbn [log future calls].
  destruct (hard_error err); [exact Hfacts |].
  destruct (_ =? len _); [exact Hfacts |].
  destruct (negb _ && is_nil err); [exact Hfacts |].
  destruct (is_EOF err && negb waiting).
  - destruct (findSegmentByBaseOffset _ _ _); [exact Hfacts |].
    destruct (hd_error (future e)) as [[| | w'] |]; exact Hfacts.
  - destruct (findSegmentByBaseOffset _ _ _); [exact Hfacts |].
    destruct (await_next_segment _ _ _ _) as [[woke |] e']; exact Hfacts.
Qed.

Lemma Read_loop_contract (fuel : nat) :
  ReadAt_bounded ->
  forall (st : state) (e : env W),
    delivered (p st) (n st) (calls e) ->
    ended_by_cancellation (calls e) = false ->
    let '(out, st', e') := Read_loop fuel st e in
    out <> Panicked
    /\ delivered (p st') (n st') (calls e')
    /\ length (p st') = length (p st)
    /\ n st <= n st'
    /\ drop (Z.to_nat (n st')) (p st') = drop (Z.to_nat (n st')) (p st).
Proof.
  intros HB. induction fuel as [| fuel IH]; intros st e Hd Hend.
  - simpl. split; [discriminate |]. split; [exact Hd |].
    split; [reflexivity |]. split; [lia | reflexivity].
  - rewrite Read_loop_S.
    pose proof (Read_body_invariant HB st e Hd Hend) as Hi.
    pose proof (Read_body_buffer st e HB (proj1 Hd)) as Hb.
    destruct (Read_body st e) as [[st' | st' err | | st'] e'].
    + destruct Hi as [Hd' Hend']. destruct Hb as (Hl & Hn & Hdr).
      specialize (IH st' e' Hd' Hend').
      destruct (Read_loop fuel st' e') as [[out st''] e''].
      destruct IH as (Ho & Hd'' & Hl'' & Hn'' & Hdr'').
      split; [exact Ho |]. split; [exact Hd'' |].
      split; [congruence |]. split; [lia |].
      rewrite Hdr''.
      apply (drop_agree_later _ _ (Z.to_nat (n st'))); [lia | exact Hdr].
    + destruct Hi as [Hd' _]. destruct Hb as (Hl & Hn & Hdr).
      split; [discriminate |]. split; [exact Hd' |].
      split; [exact Hl |]. split; [lia | exact Hdr].
    + destruct Hb.
    + destruct Hi as [Hd' _]. destruct Hb as (Hl & Hn & Hdr).
      split; [discriminate |]. split; [exact Hd' |].
      split; [exact Hl |]. split; [lia | exact Hdr].
Qed.

(** X3: [UncommittedReader.Read] keeps to the [io.Reader] contract: it never
    panics, the count [n] stays within [0 .. len(p)], the first [n] bytes of
    the buffer are the bytes the segment reads returned, in order, and the
    buffer beyond [n] is left as it was. *)
Theorem Uncommitted_Read_contract (fuel : nat) (ru : UncommittedReader)
    (p : list Byte.byte) (w : W) (fut : list (signal W)) :
  ReadAt_bounded ->
  let '(out, st, e) := Read fuel ru p (Env w fut []) in
  out <> Panicked
  /\ length (Uncommitted.p st) = length p
  /\ 0 <= n st <= len p
  /\ take (Z.to_nat (n st)) (Uncommitted.p st) = copied (calls e)
  /\ drop (Z.to_nat (n st)) (Uncommitted.p st) = drop (Z.to_nat (n st)) p.
Proof.
  intros HB. unfold Read.
  pose proof (Read_loop_contract fuel HB
                (State ru p 0 (Segments w) false) (Env w fut [])
                (delivered_nil p) eq_refl) as Hc.
  cbn [log] in *.
  destruct (Read_loop fuel _ _) as [[out st] e].
  cbn [Uncommitted.p Uncommitted.n] in Hc.
  destruct Hc as (Ho & (Hn & _ & Ht) & Hl & _ & Hd).
  unfold len in *. rewrite Hl in Hn. auto.
Qed.

Lemma Read_body_nil_error (st : state) (e : env W) :
  match Read_body st e with
  | (Break st' None, _) => n st' = len (p st')
  | _ => True
  end.
Proof.
  destruct st as [rd p n segs waiting]. unfold Read_body.
  destruct (slice_ok p n (len p)); cbn [negb]; [| exact I].
  destruct (ReadAt (log e) (seg rd) (len p - n) (pos rd)) as [bs err].
  cbn [log future calls].
  destruct (hard_error err) eqn:Hhard.
  { destruct err; [exact I | discriminate]. }
  destruct (Z.eqb_spec (n + len bs) (len (store p n (len p) bs))) as [Heq | _].
  { destruct err; [exact I | exact Heq]. }
  destruct (negb _ && is_nil err); [exact I |].
  destruct (is_EOF err && negb waiting).
  - destruct (findSegmentByBaseOffset _ _ _); [exact I |].
    destruct (hd_error (future e)) as [[| | w'] |]; exact I.
  - destruct (findSegmentByBaseOffset _ _ _); [exact I |].
    destruct (await_next_segment _ _ _ _) as [[woke |] e']; exact I.
Qed.

Lemma Read_loop_length (fuel : nat) :
  forall (st : state) (e : env W),
    length (p (Read_loop fuel st e).1.2) = length (p st).
Proof.
  induction fuel as [| fuel IH]; intros st e; [reflexivity |].
  rewrite Read_loop_S.
  assert (Hb : match Read_body st e with
               | (Continue st', _) | (Break st' _, _) | (Park st', _) =>
                   length (p st') = length (p st)
               | (Crash, _) => True
               end).
  { destruct st as [rd p n segs waiting]. unfold Read_body.
    destruct (slice_ok p n (len p)) eqn:Hok; cbn [negb]; [| exact I].
    destruct (ReadAt (log e) (seg rd) (len p - n) (pos rd)) as [bs err].
    pose proof (length_store p n (len p) bs Hok) as Hl.
    cbn [log future calls Uncommitted.p].
    destruct (hard_error err); [exact Hl |].
    destruct (_ =? len _); [exact Hl |].
    destruct (negb _ && is_nil err); [exact Hl |].
    destruct (is_EOF err && negb waiting).
    - destruct (findSegmentByBaseOffset _ _ _); [exact Hl |].
      destruct (hd_error (future e)) as [[| | w'] |]; exact Hl.
    - destruct (findSegmentByBaseOffset _ _ _); [exact Hl |].
      destruct (await_next_segment _ _ _ _) as [[woke |] e']; exact Hl. }
  destruct (Read_body st e) as [[st' | st' err | | st'] e']; cbn [fst snd];
    try exact Hb; try reflexivity.
  rewrite IH. exact Hb.
Qed.

Lemma Read_loop_nil_error (fuel : nat) :
  forall (st : state) (e : env W),
    match Read_loop fuel st e with
    | (Returned k None, st', _) => k = len (p st')
    | _ => True
    end.
Proof.
  induction fuel as [| fuel IH]; intros st e; [exact I |].
  rewrite Read_loop_S.
  pose proof (Read_body_nil_error st e) as Hb.
  destruct (Read_body st e) as [[st' | st' [err |] | | st'] e'];
    try exact I; [apply IH | exact Hb].
Qed.

(** X4: [UncommittedReader.Read] returns a nil error only with a full
    buffer: a short count always comes with an error. *)
Theorem Uncommitted_Read_nil_error_full (fuel : nat) (ru : UncommittedReader)
    (p : list Byte.byte) (e : env W) :
  match Read fuel ru p e with
  | (Returned k None, st, _) => k = len p /\ length (Uncommitted.p st) = length p
  | _ => True
  end.
Proof.
  unfold Read.
  pose proof (Read_loop_nil_error fuel (State ru p 0 (Segments (log e)) false) e) as Hn.
  pose proof (Read_loop_length fuel (State ru p 0 (Segments (log e)) false) e) as Hl.
  destruct (Read_loop fuel _ e) as [[[k [err |] | | |] st] e']; try exact I.
  cbn [fst snd Uncommitted.p] in Hl. unfold len in *. rewrite Hn, Hl. auto.
Qed.

End UncommittedContract.

Section CommittedContract.
Import Committed.
Context {W : Type} {API : CommitLogAPI W}.

(** What one iteration of [readLoop] does to the buffer and the count. *)
Lemma readLoop_body_buffer (st : state) (e : env W) :
  ReadAt_bounded ->
  match readLoop_body st e with
  | (Crash, _) => True
  | (Continue st', _) | (Break st' _, _) | (Park st', _) =>
      length (p st') = length (p st)
      /\ n st <= n st' <= len (p st)
      /\ drop (Z.to_nat (n st')) (p st') = drop (Z.to_nat (n st')) (p st)
  end.
Proof.
  intros HB. destruct st as [rd p n segs].
  cbn [Committed.p Committed.n] in *. unfold readLoop_body.
  destruct (segment_read (log e) rd p n) as [[bs err] |] eqn:Hread;
    [| destruct (seg rd); exact I].
  destruct (segment_read_Some _ _ _ _ _ _ Hread) as (s & Hs & Hok & Hr).
  rewrite Hs.
  pose proof (proj1 (slice_ok_spec _ _ _) Hok) as (H0 & H1 & H2).
  pose proof (HB (log e) s (limit rd p - n) (pos rd) ltac:(lia)) as Hb.
  rewrite Hr in Hb. cbn [fst] in Hb. pose proof (len_nonneg bs) as Hbs.
  assert (Hfacts :
    length (store p n (limit rd p) bs) = length p
    /\ n <= n + len bs <= len p
    /\ drop (Z.to_nat (n + len bs)) (store p n (limit rd p) bs)
       = drop (Z.to_nat (n + len bs)) p).
  { split; [by apply length_store |]. split; [lia |]. by apply drop_store. }
  cbn [log future calls Committed.seg Committed.hwSeg Committed.pos
       Committed.hwPos Committed.hw].
  destruct (hard_error err); [exact Hfacts |].
  destruct (_ =? len _); [exact Hfacts |].
  destruct (negb _ && is_nil err); [exact Hfacts |].
  destruct (is_EOF err).
  { destruct (findSegmentByBaseOffset _ _ _); exact Hfacts. }
  destruct (syncHW _ _ _ _) as [hw' e' | e' | e']; try exact Hfacts.
  destruct (getHWPos _ _ _) as [failure | [hwIdx hwPos']]; [exact Hfacts |].
  destruct (_ !! hwIdx) as [s' |]; [exact Hfacts | exact I].
Qed.

Lemma readLoop_body_delivered (st : state) (e : env W) :
  ReadAt_bounded ->
  delivered (p st) (n st) (calls e) ->
  match readLoop_body st e with
  | (Crash, _) => True
  | (Continue st', e') | (Break st' _, e') | (Park st', e') =>
      delivered (p st') (n st') (calls e')
  end.
Proof.
  intros HB Hd. destruct st as [rd p n segs].
  cbn [Committed.p Committed.n] in *. unfold readLoop_body.
  destruct (segment_read (log e) rd p n) as [[bs err] |] eqn:Hread;
    [| destruct (seg rd); exact I].
  destruct (segment_read_Some _ _ _ _ _ _ Hread) as (s & Hs & Hok & Hr).
  rewrite Hs.
  assert (Hb : len bs <= limit rd p - n).
  { pose proof (HB (log e) s (limit rd p - n) (pos rd)) as Hb.
    rewrite Hr in Hb. apply Hb. apply slice_ok_spec in Hok. lia. }
  pose proof (delivered_store p n (limit rd p) (calls e) s (pos rd) bs err
                Hd Hok Hb) as Hd'.
  cbn [log future calls Committed.seg Committed.hwSeg Committed.pos
       Committed.hwPos Committed.hw].
  destruct (hard_error err); [exact Hd' |].
  destruct (_ =? len _); [exact Hd' |].
  destruct (negb _ && is_nil err); [exact Hd' |].
  destruct (is_EOF err).
  { destruct (findSegmentByBaseOffset _ _ _); exact Hd'. }
  pose proof (syncHW_calls (future e) (hw rd) (log e)
                (CallReadAt s (pos rd) bs err :: calls e) eq_refl) as Hsync.
  destruct (syncHW _ _ _ _) as [hw' e' | e' | e'].
  - destruct Hsync as [Hc _].
    destruct (getHWPos _ _ _) as [failure | [hwIdx hwPos']];
      [exact (delivered_copied _ _ _ _ Hc Hd') |].
    destruct (_ !! hwIdx) as [s' |]; [| exact I].
    exact (delivered_copied _ _ _ _ Hc Hd').
  - exact (delivered_copied _ _ _ _ Hsync Hd').
  - destruct Hsync as [Hc _]. exact (delivered_copied _ _ _ _ Hc Hd').
Qed.

Lemma readLoop_contract (fuel : nat) :
  ReadAt_bounded ->
  forall (st : state) (e : env W),
    delivered (p st) (n st) (calls e) ->
    ended_by_cancellation (calls e) = false ->
    let '(out, st', e') := readLoop fuel st e in
    out <> Panicked ->
    delivered (p st') (n st') (calls e')
    /\ length (p st') = length (p st)
    /\ n st <= n st'
    /\ drop (Z.to_nat (n st')) (p st') = drop (Z.to_nat (n st')) (p st).
Proof.
  intros HB. induction fuel as [| fuel IH]; intros st e Hd Hend.
  - simpl. intros _. split; [exact Hd |].
    split; [reflexivity |]. split; [lia | reflexivity].
  - rewrite readLoop_S.
    pose proof (readLoop_body_invariant HB st e Hd Hend) as Hi.
    pose proof (readLoop_body_buffer st e HB) as Hb.
    pose proof (readLoop_body_delivered st e HB Hd) as Hp.
    destruct (readLoop_body st e) as [[st' | st' err | | st'] e'].
    + destruct Hi as [Hd' Hend']. destruct Hb as (Hl & Hn & Hdr).
      specialize (IH st' e' Hd' Hend').
      destruct (readLoop fuel st' e') as [[out st''] e''].
      intros Ho. destruct (IH Ho) as (Hd'' & Hl'' & Hn'' & Hdr'').
      split; [exact Hd'' |]. split; [congruence |]. split; [lia |].
      rewrite Hdr''.
      apply (drop_agree_later _ _ (Z.to_nat (n st'))); [lia | exact Hdr].
    + destruct Hi as [Hd' _]. destruct Hb as (Hl & Hn & Hdr). intros _.
      split; [exact Hd' |]. split; [exact Hl |]. split; [lia | exact Hdr].
    + intros Ho. destruct (Ho eq_refl).
    + destruct Hb as (Hl & Hn & Hdr). intros _.
      split; [exact Hp |]. split; [exact Hl |]. split; [lia | exact Hdr].
Qed.

(** X6: whenever [CommittedReader.Read] does not panic, it keeps to the
    [io.Reader] contract: [n] stays within [0 .. len(p)], the first [n] bytes
    of the buffer are the bytes the segment reads returned, in order, and the
    buffer beyond [n] is left as it was. *)
Theorem Committed_Read_contract (fuel : nat) (rc : CommittedReader)
    (p : list Byte.byte) (w : W) (fut : list (signal W)) :
  ReadAt_bounded ->
  let '(out, st, e) := Read fuel rc p (Env w fut []) in
  out <> Panicked ->
  length (Committed.p st) = length p
  /\ 0 <= n st <= len p
  /\ take (Z.to_nat (n st)) (Committed.p st) = copied (calls e)
  /\ drop (Z.to_nat (n st)) (Committed.p st) = drop (Z.to_nat (n st)) p.
Proof.
  intros HB.
  assert (Hfin : forall (st : state) (e : env W),
            delivered (Committed.p st) (n st) (calls e) ->
            length (Committed.p st) = length p ->
            drop (Z.to_nat (n st)) (Committed.p st) = drop (Z.to_nat (n st)) p ->
            length (Committed.p st) = length p
            /\ 0 <= n st <= len p
            /\ take (Z.to_nat (n st)) (Committed.p st) = copied (calls e)
            /\ drop (Z.to_nat (n st)) (Committed.p st)
               = drop (Z.to_nat (n st)) p).
  { intros st e (Hn & _ & Ht) Hl Hd. unfold len in *. rewrite Hl in Hn. auto. }
  assert (Hloop : forall (rd : CommittedReader) (segs : list ptr) (e : env W),
            delivered p 0 (calls e) ->
            ended_by_cancellation (calls e) = false ->
            let '(out, st, e') := readLoop fuel (State rd p 0 segs) e in
            out <> Panicked ->
            length (Committed.p st) = length p
            /\ 0 <= n st <= len p
            /\ take (Z.to_nat (n st)) (Committed.p st) = copied (calls e')
            /\ drop (Z.to_nat (n st)) (Committed.p st)
               = drop (Z.to_nat (n st)) p).
  { intros rd segs e Hd Hend.
    pose proof (readLoop_contract fuel HB (State rd p 0 segs) e Hd Hend) as Hc.
    destruct (readLoop fuel _ e) as [[out st] e'].
    intros Ho. destruct (Hc Ho) as (Hd' & Hl & _ & Hdr). by apply Hfin. }
  unfold Read. cbn [log future calls].
  destruct (seg rc) as [s |].
  { apply Hloop; [apply delivered_nil | reflexivity]. }
  unfold enter. cbn [log future calls].
  pose proof (syncHW_calls fut (hw rc) w [] eq_refl) as Hsync.
  assert (Hstart : forall (rd : CommittedReader) (segs : list ptr) (e : env W),
            copied (calls e) = [] ->
            length p = length p
            /\ 0 <= 0 <= len p
            /\ take (Z.to_nat 0) p = copied (calls e)
            /\ drop (Z.to_nat 0) p = drop (Z.to_nat 0) p).
  { intros rd segs e Hc. apply (Hfin (State rd p 0 segs) e); try reflexivity.
    apply (delivered_copied _ _ [] _ Hc). apply delivered_nil. }
  destruct (syncHW (hw rc) w [] fut) as [hw' e' | e' | e'].
  - destruct Hsync as [Hc Hend'].
    destruct (getHWPos _ _ _) as [failure | [hwIdx hwPos']];
      [intros _; by apply (Hstart rc []) |].
    destruct (_ !! hwIdx) as [s' |]; [| intros Ho; destruct (Ho eq_refl)].
    cbn [Committed.seg Committed.hwSeg Committed.pos Committed.hwPos Committed.hw].
    destruct (findSegment _ _ _) as [[s i] |]; [| intros _; by apply (Hstart rc [])].
    destruct (findEntry _ _ _) as [failure | entry];
      [intros _; by apply (Hstart rc []) |].
    apply Hloop; [| exact Hend'].
    apply (delivered_copied _ _ [] _ Hc). apply delivered_nil.
  - intros _. by apply (Hstart rc []).
  - destruct Hsync as [Hc _]. intros _. by apply (Hstart rc []).
Qed.

Lemma readLoop_body_nil_error (st : state) (e : env W) :
  match readLoop_body st e with
  | (Break st' None, e') =>
      length (p st') = length (p st)
      /\ (n st' = len (p st')
          \/ exists failure,
               getHWPos (log e') (Segments (log e')) (hw (r st')) = inl failure)
  | (Continue st', _) | (Break st' _, _) | (Park st', _) =>
      length (p st') = length (p st)
  | (Crash, _) => True
  end.
Proof.
  destruct st as [rd p n segs]. cbn [Committed.p]. unfold readLoop_body.
  destruct (segment_read (log e) rd p n) as [[bs err] |] eqn:Hread;
    [| destruct (seg rd); exact I].
  destruct (segment_read_Some _ _ _ _ _ _ Hread) as (s & Hs & Hok & Hr).
  rewrite Hs.
  pose proof (length_store p n (limit rd p) bs Hok) as Hl.
  cbn [log future calls Committed.seg Committed.hwSeg Committed.pos
       Committed.hwPos Committed.hw].
  destruct (hard_error err) eqn:Hhard.
  { destruct err; [exact Hl | discriminate]. }
  destruct (Z.eqb_spec (n + len bs) (len (store p n (limit rd p) bs)))
    as [Heq | _].
  { destruct err; [exact Hl | split; [exact Hl | left; exact Heq]]. }
  destruct (negb _ && is_nil err); [exact Hl |].
  destruct (is_EOF err).
  { destruct (findSegmentByBaseOffset _ _ _); exact Hl. }
  destruct (syncHW _ _ _ _) as [hw' e' | e' | e']; try exact Hl.
  destruct (getHWPos _ _ _) as [failure | [hwIdx hwPos']] eqn:Hget.
  - destruct err; [exact Hl |]. split; [exact Hl |]. right.
    exists failure. exact Hget.
  - destruct (_ !! hwIdx) as [s' |]; [exact Hl | exact I].
Qed.

Lemma readLoop_nil_error (fuel : nat) :
  forall (st : state) (e : env W),
    match readLoop fuel st e with
    | (Returned k None, st', e') =>
        length (p st') = length (p st)
        /\ (k = len (p st')
            \/ exists failure,
                 getHWPos (log e') (Segments (log e')) (hw (r st')) = inl failure)
    | (Panicked, _, _) => True
    | (_, st', _) => length (p st') = length (p st)
    end.
Proof.
  induction fuel as [| fuel IH]; intros st e; [reflexivity |].
  rewrite readLoop_S.
  pose proof (readLoop_body_nil_error st e) as Hb.
  destruct (readLoop_body st e) as [[st' | st' [err |] | | st'] e'];
    try exact Hb; try exact I.
  specialize (IH st' e').
  destruct (readLoop fuel st' e') as [[[k [err |] | | |] st''] e''];
    first [ exact I
          | congruence
          | destruct IH as [Hl Hk]; split; [congruence | exact Hk] ].
Qed.

(** X5: [CommittedReader.Read] returns a nil error with a full buffer, or
    else after [getHWPos] failed for the high watermark it has just stored in
    [r.hw]: that is the only way for it to return a short count without an
    error. *)
Theorem Committed_Read_nil_error (fuel : nat) (rc : CommittedReader)
    (p : list Byte.byte) (e : env W) :
  match Read fuel rc p e with
  | (Returned k None, st, e') =>
      length (Committed.p st) = length p
      /\ (k = len p
          \/ exists failure,
               getHWPos (log e') (Segments (log e')) (hw (r st)) = inl failure)
  | _ => True
  end.
Proof.
  assert (Hloop : forall (rd : CommittedReader) (segs : list ptr) (e0 : env W),
            match readLoop fuel (State rd p 0 segs) e0 with
            | (Returned k None, st, e') =>
                length (Committed.p st) = length p
                /\ (k = len p
                    \/ exists failure,
                         getHWPos (log e') (Segments (log e')) (hw (r st))
                         = inl failure)
            | _ => True
            end).
  { intros rd segs e0.
    pose proof (readLoop_nil_error fuel (State rd p 0 segs) e0) as Hn.
    destruct (readLoop fuel _ e0) as [[[k [err |] | | |] st] e']; try exact I.
    cbn [Committed.p] in Hn. destruct Hn as [Hl Hk]. split; [exact Hl |].
    unfold len in *. rewrite <- Hl. exact Hk. }
  unfold Read. destruct (seg rc) as [s |]; [apply Hloop |].
  unfold enter.
  destruct (syncHW _ _ _ _) as [hw' e' | e' | e']; try exact I.
  destruct (getHWPos _ _ _) as [failure | [hwIdx hwPos']]; [exact I |].
  destruct (_ !! hwIdx) as [s' |]; [| exact I].
  cbn [Committed.seg Committed.hwSeg Committed.pos Committed.hwPos Committed.hw].
  destruct (findSegment _ _ _) as [[s i] |]; [| exact I].
  destruct (findEntry _ _ _) as [failure | entry]; [exact I |].
  apply Hloop.
Qed.

End CommittedContract.

Section AwaitFacts.
Import Uncommitted.
Context {W : Type} {API : CommitLogAPI W}.

Lemma cancelled_in_wait_cons (sig : signal W) (fut fut' : list (signal W)) :
  cancelled_in_wait fut fut' -> cancelled_in_wait (sig :: fut) fut'.
Proof.
  intros (before & s & -> & Hs). exists (sig :: before), s.
  split; [reflexivity | exact Hs].
Qed.

Lemma await_next_segment_ends (fut : list (signal W)) :
  forall (rd : UncommittedReader) (w : W) (tr : list call),
    match await_next_segment rd w tr fut with
    | (Some true, _) => False
    | (Some false, e') =>
        cancelled_in_wait fut (future e') /\ copied (calls e') = copied tr
    | (None, e') =>
        Forall (fun sig => is_woken sig = true) fut
        /\ future e' = [] /\ copied (calls e') = copied tr
    end.
Proof.
  induction fut as [| sig rest IH]; intros rd w tr; simpl.
  - repeat split. constructor.
  - destruct sig as [| | w']; simpl.
    + split; [| reflexivity]. exists [], Closed. split; reflexivity.
    + split; [| reflexivity]. exists [], Cancelled. split; reflexivity.
    + specialize (IH rd w' (CallWaitForData (seg rd) (pos rd) :: tr)).
      destruct (await_next_segment rd w' _ rest) as [[[|] |] e'].
      * exact IH.
      * destruct IH as [Hc Hcp]. split; [by apply cancelled_in_wait_cons | exact Hcp].
      * destruct IH as (Hall & Hf & Hcp). repeat split; try assumption.
        constructor; [reflexivity | exact Hall].
Qed.

(** X7: once [UncommittedReader.Read] has woken from a wait without reading
    anything and finds no next segment in the refreshed list, it never reads
    again during the call: [nextSeg] is not looked up again, so every wake-up
    (even one that brings the next segment) leads to another wait, and the
    call ends only with [io.EOF] on close or cancellation, or not at all. *)
Theorem Read_second_wait_never_resumes (st : state) (e : env W)
    (bs : list Byte.byte) :
  waiting st = true ->
  slice_ok (p st) (n st) (len (p st)) = true ->
  ReadAt (log e) (seg (r st)) (len (p st) - n st) (pos (r st))
    = (bs, Some io_EOF) ->
  n st + len bs <> len (p st) ->
  findSegmentByBaseOffset (log e) (Segments (log e))
    (wrap64 (BaseOffset (log e) (seg (r st)) + 1)) = None ->
  match Read_body st e with
  | (Break st' err, e') =>
      err = Some io_EOF
      /\ cancelled_in_wait (future e) (future e')
      /\ n st' = n st + len bs
      /\ copied (calls e') = copied (calls e) ++ bs
  | (Park st', e') =>
      Forall (fun sig => is_woken sig = true) (future e)
      /\ future e' = []
      /\ copied (calls e') = copied (calls e) ++ bs
  | (Continue _, _) | (Crash, _) => False
  end.
Proof.
  destruct st as [rd p n segs waiting].
  cbn [Uncommitted.r Uncommitted.p Uncommitted.n Uncommitted.waiting].
  intros -> Hok Hr Hfull Hnext. unfold Read_body. rewrite Hok, Hr.
  cbn [negb log future calls hard_error is_EOF is_nil].
  rewrite len_store by exact Hok.
  destruct (Z.eqb_spec (n + len bs) (len p)) as [? | _]; [contradiction |].
  rewrite andb_false_r. cbn [negb andb Uncommitted.seg Uncommitted.pos].
  rewrite Hnext.
  pose proof (await_next_segment_ends (future e)
                (Reader (seg rd) (wrap64 (pos rd + len bs))) (log e)
                (CallReadAt (seg rd) (pos rd) bs (Some io_EOF) :: calls e)) as Ha.
  cbn [Uncommitted.seg] in Ha.
  destruct (await_next_segment _ _ _ _) as [[[|] |] e'].
  - destruct Ha.
  - destruct Ha as [Hc Hcp]. repeat split; assumption.
  - exact Ha.
Qed.

End AwaitFacts.

Section SyncFacts.
Import Committed.
Context {W : Type} {API : CommitLogAPI W}.

Lemma syncHW_outcome (fut : list (signal W)) :
  forall (r_hw : Z) (w : W) (tr : list call),
    match syncHW r_hw w tr fut with
    | Synced hw' e' =>
        hw' = HighWatermark (log e') /\ hw' <> r_hw
        /\ exists used,
             fut = used ++ future e'
             /\ Forall (fun sig => is_woken sig = true) used
    | WaitFalse e' =>
        HighWatermark (log e') = r_hw /\ cancelled_in_wait fut (future e')
    | WaitForever e' =>
        HighWatermark (log e') = r_hw /\ future e' = []
        /\ Forall (fun sig => is_woken sig = true) fut
    end.
Proof.
  induction fut as [| sig rest IH]; intros r_hw w tr; simpl.
  - destruct (Z.eqb_spec (HighWatermark w) r_hw) as [Heq | Hne]; simpl.
    + repeat split; [exact Heq | constructor].
    + repeat split; [exact Hne |]. exists []. split; [reflexivity | constructor].
  - destruct (Z.eqb_spec (HighWatermark w) r_hw) as [Heq | Hne]; simpl.
    + destruct sig as [| | w']; simpl.
      * split; [exact Heq |]. exists [], Closed. split; reflexivity.
      * split; [exact Heq |]. exists [], Cancelled. split; reflexivity.
      * specialize (IH r_hw w' (CallWaitForHW (HighWatermark w) :: tr)).
        destruct (syncHW r_hw w' _ rest) as [hw' e' | e' | e'].
        -- destruct IH as (Hh & Hn & used & Hu & Hall).
           repeat split; try assumption.
           exists (Woken w' :: used). split; [simpl; by f_equal |].
           constructor; [reflexivity | exact Hall].
        -- destruct IH as [Hh (before & s & Hb & Hs)].
           split; [exact Hh |]. exists (Woken w' :: before), s.
           split; [simpl; by f_equal | exact Hs].
        -- destruct IH as (Hh & Hf & Hall). repeat split; try assumption.
           constructor; [reflexivity | exact Hall].
    + repeat split; [exact Hne |]. exists []. split; [reflexivity | constructor].
Qed.

(** X8: the loop [for hw == r.hw] ends in one of three ways.  It yields the
    current high watermark of the log, which differs from [r.hw] (it is
    compared with [!=], so it may be lower), after wake-ups only; or a wait
    received the close or the cancellation while the high watermark still was
    [r.hw]; or the reader stays parked with the high watermark at [r.hw]. *)
Theorem syncHW_ends (fut : list (signal W)) :
  forall (r_hw : Z) (w : W) (tr : list call),
    match syncHW r_hw w tr fut with
    | Synced hw' e' =>
        hw' = HighWatermark (log e') /\ hw' <> r_hw
        /\ exists used,
             fut = used ++ future e'
             /\ Forall (fun sig => is_woken sig = true) used
    | WaitFalse e' =>
        HighWatermark (log e') = r_hw /\ cancelled_in_wait fut (future e')
    | WaitForever e' =>
        HighWatermark (log e') = r_hw /\ future e' = []
        /\ Forall (fun sig => is_woken sig = true) fut
    end.
Proof. exact (syncHW_outcome fut). Qed.

(** X9: a reader that [NewReaderCommitted] returns holds the high watermark
    of the log at construction; it is in waiting state ([seg] nil, [pos] -1)
    exactly when the offset is above that high watermark; and its [hwSeg] is
    nil exactly when the log has no high watermark yet, in which case [hwPos]
    is -1. *)
Theorem NewReaderCommitted_invariant (w : W) (offset : Z)
    (rd : CommittedReader) :
  NewReaderCommitted w offset = Ok rd ->
  hw rd = HighWatermark w
  /\ (seg rd = None <-> HighWatermark w < offset)
  /\ (seg rd = None -> pos rd = -1)
  /\ (hwSeg rd = None <-> HighWatermark w = -1)
  /\ (HighWatermark w = -1 -> hwPos rd = -1).
Proof.
  unfold NewReaderCommitted.
  destruct (Z.eqb_spec (HighWatermark w) (-1)) as [Heq | Hne]; cbn [negb].
  - destruct (Z.ltb_spec (HighWatermark w) offset) as [Hlt | Hge].
    + intros [= <-]. cbn. repeat split; auto.
    + destruct (findSegment _ _ _) as [[s i] |]; [| discriminate].
      destruct (findEntry _ _ _) as [err | entry]; [discriminate |].
      intros [= <-]. cbn. repeat split; auto; try discriminate; lia.
  - destruct (getHWPos _ _ _) as [err | [hwIdx hwPosition]]; [discriminate |].
    destruct (_ !! hwIdx) as [s' |]; [| discriminate].
    destruct (Z.ltb_spec (HighWatermark w) offset) as [Hlt | Hge].
    + intros [= <-]. cbn. repeat split; auto; try discriminate; contradiction.
    + destruct (findSegment _ _ _) as [[s i] |]; [| discriminate].
      destruct (findEntry _ _ _) as [err | entry]; [discriminate |].
      intros [= <-]. cbn.
      repeat split; auto; try discriminate; try contradiction; lia.
Qed.

End SyncFacts.

Section ServedFacts.
Context {W : Type} {API : CommitLogAPI W}.

(** X10: when the segment serves the whole buffer in the first read,
    [UncommittedReader.Read] returns after that one read with [len(p)] and the
    error of [ReadAt]; the buffer holds the bytes read and the position has
    moved by [len(p)]. *)
Theorem Uncommitted_Read_served_in_full (fuel : nat)
    (ru : Uncommitted.UncommittedReader) (p : list Byte.byte) (e : env W)
    (bs : list Byte.byte) (err : option error) :
  ReadAt (log e) (Uncommitted.seg ru) (len p) (Uncommitted.pos ru) = (bs, err) ->
  len bs = len p ->
  Uncommitted.Read (S fuel) ru p e
  = (Returned (len p) err,
     Uncommitted.State
       (Uncommitted.Reader (Uncommitted.seg ru)
          (wrap64 (Uncommitted.pos ru + len p)))
       bs (len p) (Segments (log e)) false,
     Env (log e) (future e)
       (CallReadAt (Uncommitted.seg ru) (Uncommitted.pos ru) bs err :: calls e)).
Proof.
  intros Hr Hl. unfold Uncommitted.Read. rewrite Read_loop_S.
  unfold Uncommitted.Read_body.
  assert (Hok : slice_ok p 0 (len p) = true).
  { apply slice_ok_spec. pose proof (len_nonneg p). lia. }
  rewrite Hok. cbn [negb]. rewrite Z.sub_0_r, Hr.
  rewrite store_whole by exact Hl. rewrite Z.add_0_l, Hl, Z.eqb_refl.
  destruct (hard_error err); reflexivity.
Qed.

(** X11: when the buffer is no longer than the bytes between the position
    and the HW position (or the reader is not in the HW segment) and the
    segment serves the whole buffer, [CommittedReader.Read] returns after one
    read with [len(p)] and the error of [ReadAt]; the buffer holds the bytes
    read and the position has moved by [len(p)]. *)
Theorem Committed_Read_served_in_full (fuel : nat)
    (rc : Committed.CommittedReader) (p : list Byte.byte) (e : env W)
    (s : ptr) (bs : list Byte.byte) (err : option error) :
  Committed.seg rc = Some s ->
  (Committed.same_segment (Committed.seg rc) (Committed.hwSeg rc) = true ->
   len p <= Committed.hwPos rc - Committed.pos rc
   /\ int64_range (Committed.hwPos rc - Committed.pos rc)) ->
  ReadAt (log e) s (len p) (Committed.pos rc) = (bs, err) ->
  len bs = len p ->
  Committed.Read (S fuel) rc p e
  = (Returned (len p) err,
     Committed.State
       (Committed.Reader (Some s) (Committed.hwSeg rc)
          (wrap64 (Committed.pos rc + len p)) (Committed.hwPos rc)
          (Committed.hw rc))
       bs (len p) (Segments (log e)),
     Env (log e) (future e) (CallReadAt s (Committed.pos rc) bs err :: calls e)).
Proof.
  intros Hs Hhw Hr Hl. unfold Committed.Read. rewrite Hs, readLoop_S.
  assert (Hlim : Committed.limit rc p = len p).
  { unfold Committed.limit.
    destruct (Committed.same_segment _ _); [| reflexivity].
    destruct (Hhw eq_refl) as [Hle Hrange].
    rewrite wrap64_id by exact Hrange. unfold Go.min.
    destruct (Z.ltb_spec (len p) (Committed.hwPos rc - Committed.pos rc)); lia. }
  assert (Hok : slice_ok p 0 (len p) = true).
  { apply slice_ok_spec. pose proof (len_nonneg p). lia. }
  unfold Committed.readLoop_body, Committed.segment_read.
  cbn [Committed.r Committed.p Committed.n Committed.segments].
  rewrite Hs, Hlim, Hok, Z.sub_0_r, Hr.
  rewrite store_whole by exact Hl. rewrite Z.add_0_l, Hl, Z.eqb_refl.
  destruct (hard_error err); reflexivity.
Qed.

(** X12: a [CommittedReader.Read] in the HW segment into a buffer longer
    than the committed bytes ahead of the position panics as soon as the
    segment has served those bytes: the next iteration has [n > 0] and
    [lim = hwPos - pos = 0], and evaluates [p[n:lim]]. *)
Theorem Committed_Read_panics_after_reaching_HW (fuel : nat)
    (rc : Committed.CommittedReader) (p : list Byte.byte) (e : env W)
    (s : ptr) (bs : list Byte.byte) :
  Committed.seg rc = Some s ->
  Committed.hwSeg rc = Some s ->
  0 <= Committed.pos rc < Committed.hwPos rc ->
  Committed.hwPos rc < 2 ^ 63 ->
  Committed.hwPos rc - Committed.pos rc < len p ->
  ReadAt (log e) s (Committed.hwPos rc - Committed.pos rc) (Committed.pos rc)
    = (bs, None) ->
  len bs = Committed.hwPos rc - Committed.pos rc ->
  (Committed.Read (S (S fuel)) rc p e).1.1 = Panicked.
Proof.
  intros Hs Hh Hpos Hhw Hlen Hr Hl.
  destruct rc as [sg hsg ps hps h]. cbn in Hs, Hh, Hpos, Hhw, Hlen, Hr, Hl.
  subst sg hsg.
  unfold Committed.Read. cbn [Committed.seg]. rewrite readLoop_S.
  assert (Hsame : Committed.same_segment (Some s) (Some s) = true)
    by (simpl; apply Nat.eqb_refl).
  assert (Hlim : forall q b,
            Committed.limit (Committed.Reader (Some s) (Some s) q hps h) b
            = Go.min (len b) (wrap64 (hps - q))).
  { intros q b. unfold Committed.limit. cbn. by rewrite Nat.eqb_refl. }
  unfold Committed.readLoop_body at 1, Committed.segment_read.
  cbn [Committed.r Committed.p Committed.n Committed.segments Committed.seg
       Committed.pos].
  rewrite Hlim, wrap64_id by (unfold int64_range; lia).
  assert (Hmin : Go.min (len p) (hps - ps) = hps - ps).
  { unfold Go.min. destruct (Z.ltb_spec (len p) (hps - ps)); lia. }
  rewrite Hmin.
  assert (Hok : slice_ok p 0 (hps - ps) = true) by (apply slice_ok_spec; lia).
  rewrite Hok, Z.sub_0_r, Hr.
  cbn [hard_error is_nil is_EOF log future calls Committed.hwSeg
       Committed.hwPos Committed.hw Committed.pos Committed.seg].
  rewrite len_store by exact Hok. rewrite Z.add_0_l, Hl.
  destruct (Z.eqb_spec (hps - ps) (len p)) as [? | _]; [lia |].
  destruct (Z.eqb_spec (hps - ps) 0) as [? | _]; [lia |].
  cbn [negb andb]. rewrite readLoop_S.
  unfold Committed.readLoop_body, Committed.segment_read.
  cbn [Committed.r Committed.p Committed.n Committed.segments Committed.seg
       Committed.pos].
  rewrite Hlim.
  rewrite (wrap64_id (ps + (hps - ps))) by (unfold int64_range; lia).
  replace (hps - (ps + (hps - ps))) with 0 by lia.
  rewrite (wrap64_id 0) by (unfold int64_range; lia).
  assert (Hmin0 : Go.min (len (store p 0 (hps - ps) bs)) 0 = 0).
  { rewrite len_store by exact Hok. unfold Go.min.
    destruct (Z.ltb_spec (len p) 0); [pose proof (len_nonneg p) |]; lia. }
  rewrite Hmin0.
  assert (Hbad : slice_ok (store p 0 (hps - ps) bs) (hps - ps) 0 = false).
  { unfold slice_ok. destruct (Z.leb_spec (hps - ps) 0); [lia |].
    by rewrite andb_false_r. }
  rewrite Hbad. reflexivity.
Qed.

End ServedFacts.

Section EntryFacts.
Import Committed.
Context {W : Type} {API : CommitLogAPI W}.

Lemma NewReaderCommitted_waiting_fields (w : W) (offset : Z)
    (rd : CommittedReader) :
  HighWatermark w < offset ->
  NewReaderCommitted w offset = Ok rd ->
  seg rd = None /\ pos rd = -1 /\ hw rd = HighWatermark w.
Proof.
  intros Hlt. unfold NewReaderCommitted.
  destruct (if negb (HighWatermark w =? -1) then _ else _) as [[hs hp] | err |];
    try discriminate.
  destruct (Z.ltb_spec (HighWatermark w) offset); [| lia].
  intros [= <-]. repeat split.
Qed.

(** X13: a [Read] that fails while a reader built in waiting state enters
    the log has already changed the reader.  When [getHWPos] fails, [r.hw] is
    the new high watermark, so the next [Read] starts after it.  When
    [findEntry] fails, [r.seg] is set while [r.pos] still is -1, so the next
    [Read] goes straight to the read loop and calls [ReadAt] at position
    -1. *)
Theorem waiting_reader_failed_entry (w0 : W) (offset : Z)
    (rd : CommittedReader) (fuel : nat) (p : list Byte.byte) (e e' : env W)
    (hw' : Z) :
  HighWatermark w0 < offset ->
  NewReaderCommitted w0 offset = Ok rd ->
  syncHW (HighWatermark w0) (log e) (calls e) (future e) = Synced hw' e' ->
  match getHWPos (log e') (Segments (log e')) hw' with
  | inl failure =>
      Read fuel rd p e
      = (Returned 0 (Some failure),
         State (Reader None (hwSeg rd) (-1) (hwPos rd) hw') p 0
           (Segments (log e)),
         e')
  | inr (idx, hp) =>
      forall (s' s : ptr) (i : nat) (failure : error),
        Segments (log e') !! idx = Some s' ->
        findSegment (log e') (Segments (log e')) (wrap64 (HighWatermark w0 + 1))
          = Some (s, i) ->
        findEntry (log e') s (wrap64 (HighWatermark w0 + 1)) = inl failure ->
        Read fuel rd p e
        = (Returned 0 (Some failure),
           State (Reader (Some s) (Some s') (-1) hp hw') p 0 (Segments (log e)),
           e')
        /\ forall (w2 : W) (p2 : list Byte.byte),
             slice_ok p2 0 (limit (Reader (Some s) (Some s') (-1) hp hw') p2)
               = true ->
             segment_read w2 (Reader (Some s) (Some s') (-1) hp hw') p2 0
             = Some (ReadAt w2 s
                       (limit (Reader (Some s) (Some s') (-1) hp hw') p2 - 0)
                       (-1))
  end.
Proof.
  intros Hlt Hnew Hsync.
  destruct (NewReaderCommitted_waiting_fields w0 offset rd Hlt Hnew)
    as (Hseg & Hpos & Hhw).
  destruct (getHWPos (log e') (Segments (log e')) hw')
    as [failure | [idx hp]] eqn:Hget.
  - unfold Read, enter. rewrite Hseg, Hhw, Hsync, Hget, Hpos. reflexivity.
  - intros s' s i failure Hidx Hfind Hentry. split;
      [| intros w2 p2 Hok; unfold segment_read; cbn [Committed.seg Committed.pos];
         by rewrite Hok].
    unfold Read, enter. rewrite Hseg, Hhw, Hsync, Hget, Hidx. cbn.
    rewrite Hfind, Hentry, Hpos. reflexivity.
Qed.

End EntryFacts.

Section EOFFacts.
Context {W : Type} {API : CommitLogAPI W}.

Lemma cancelled_in_wait_app (used fut fut' : list (signal W)) :
  cancelled_in_wait fut fut' -> cancelled_in_wait (used ++ fut) fut'.
Proof.
  intros (before & s & -> & Hs). exists (used ++ before), s.
  split; [by rewrite app_assoc | exact Hs].
Qed.

End EOFFacts.

Section UncommittedEOF.
Import Uncommitted.
Context {W : Type} {API : CommitLogAPI W}.

Lemma Read_body_EOF (st : state) (e : env W) :
  match Read_body st e with
  | (Break st' (Some io_EOF), e') =>
      n st' = len (p st') \/ cancelled_in_wait (future e) (future e')
  | _ => True
  end.
Proof.
  destruct st as [rd p n segs waiting]. unfold Read_body.
  destruct (slice_ok p n (len p)); cbn [negb]; [| exact I].
  destruct (ReadAt (log e) (seg rd) (len p - n) (pos rd)) as [bs err].
  cbn [log future calls].
  destruct (hard_error err) eqn:Hhard.
  { destruct err as [[] |]; try exact I; discriminate. }
  destruct (Z.eqb_spec (n + len bs) (len (store p n (len p) bs))) as [Heq | _].
  { destruct err as [[] |]; try exact I. left. exact Heq. }
  destruct (negb _ && is_nil err); [exact I |].
  destruct (is_EOF err && negb waiting).
  - destruct (findSegmentByBaseOffset _ _ _); [exact I |].
    destruct (future e) as [| [| | w'] rest]; simpl; try exact I;
      right; eexists [], _; split; reflexivity.
  - destruct (findSegmentByBaseOffset _ _ _); [exact I |].
    pose proof (await_next_segment_ends (future e)
                  (Reader (seg rd) (wrap64 (pos rd + len bs))) (log e)
                  (CallReadAt (seg rd) (pos rd) bs err :: calls e)) as Ha.
    destruct (await_next_segment _ _ _ _) as [[[|] |] e'];
      [destruct Ha | right; apply Ha | exact I].
Qed.

Lemma Read_loop_EOF (fuel : nat) :
  forall (st : state) (e : env W),
    match Read_loop fuel st e with
    | (Returned k (Some io_EOF), st', e') =>
        k = len (p st') \/ cancelled_in_wait (future e) (future e')
    | _ => True
    end.
Proof.
  induction fuel as [| fuel IH]; intros st e; [exact I |].
  rewrite Read_loop_S.
  pose proof (Read_body_EOF st e) as Hb.
  pose proof (Read_body_signals st e) as Hs.
  destruct (Read_body st e) as [[st' | st' [[] |] | | st'] e'];
    try exact I; [| exact Hb].
  specialize (IH st' e'). destruct Hs as (used & Hu & _).
  destruct (Read_loop fuel st' e') as [[[k [[] |] | | |] st''] e''];
    try exact I.
  destruct IH as [Hk | Hc]; [left; exact Hk | right].
  rewrite Hu. by apply cancelled_in_wait_app.
Qed.

(** X14: [UncommittedReader.Read] returns [io.EOF] only when a wait of the
    call received the close of the log or the cancellation, or else together
    with a full buffer (an [io.EOF] that [ReadAt] reported with the read that
    filled it): reaching the end of the data alone never ends the call. *)
Theorem Uncommitted_Read_EOF_only_cancelled (fuel : nat)
    (ru : UncommittedReader) (p : list Byte.byte) (e : env W) :
  match Read fuel ru p e with
  | (Returned k (Some io_EOF), _, e') =>
      k = len p \/ cancelled_in_wait (future e) (future e')
  | _ => True
  end.
Proof.
  unfold Read.
  pose proof (Read_loop_EOF fuel (State ru p 0 (Segments (log e)) false) e) as He.
  pose proof (Read_loop_length fuel (State ru p 0 (Segments (log e)) false) e) as Hl.
  destruct (Read_loop fuel _ e) as [[[k [[] |] | | |] st] e']; try exact I.
  cbn [fst snd Uncommitted.p] in Hl.
  destruct He as [Hk | Hc]; [left | right; exact Hc].
  unfold len in *. by rewrite <- Hl.
Qed.

End UncommittedEOF.

Section CommittedEOF.
Import Committed.
Context {W : Type} {API : CommitLogAPI W}.

Lemma readLoop_body_EOF (st : state) (e : env W) :
  match readLoop_body st e with
  | (Break st' (Some io_EOF), e') =>
      n st' = len (p st') \/ cancelled_in_wait (future e) (future e')
  | _ => True
  end.
Proof.
  destruct st as [rd p n segs]. unfold readLoop_body.
  destruct (seg rd) as [s |]; [| exact I].
  destruct (segment_read (log e) rd p n) as [[bs err] |]; [| exact I].
  cbn [log future calls].
  destruct (hard_error err) eqn:Hhard.
  { destruct err as [[] |]; try exact I; discriminate. }
  destruct (Z.eqb_spec (n + len bs) (len (store p n (limit rd p) bs)))
    as [Heq | _].
  { destruct err as [[] |]; try exact I. left. exact Heq. }
  destruct (negb _ && is_nil err); [exact I |].
  destruct (is_EOF err) eqn:Heof.
  { destruct (findSegmentByBaseOffset _ _ _); exact I. }
  pose proof (syncHW_outcome (future e) (hw rd) (log e)
                (CallReadAt s (pos rd) bs err :: calls e)) as Hs.
  destruct (syncHW _ _ _ _) as [hw' e' | e' | e']; [| right; apply Hs | exact I].
  destruct (getHWPos _ _ _) as [failure | [hwIdx hwPos']].
  - destruct err as [[] |]; try exact I. discriminate.
  - destruct (_ !! hwIdx); exact I.
Qed.

Lemma readLoop_EOF (fuel : nat) :
  forall (st : state) (e : env W),
    match readLoop fuel st e with
    | (Returned k (Some io_EOF), st', e') =>
        k = len (p st') \/ cancelled_in_wait (future e) (future e')
    | _ => True
    end.
Proof.
  induction fuel as [| fuel IH]; intros st e; [exact I |].
  rewrite readLoop_S.
  pose proof (readLoop_body_EOF st e) as Hb.
  pose proof (readLoop_body_signals st e) as Hs.
  destruct (readLoop_body st e) as [[st' | st' [[] |] | | st'] e'];
    try exact I; [| exact Hb].
  specialize (IH st' e'). destruct Hs as (used & Hu & _).
  destruct (readLoop fuel st' e') as [[[k [[] |] | | |] st''] e''];
    try exact I.
  destruct IH as [Hk | Hc]; [left; exact Hk | right].
  rewrite Hu. by apply cancelled_in_wait_app.
Qed.

(** X15: [CommittedReader.Read] returns [io.EOF] only when a wait of the
    call received the close of the log or the cancellation, or together with
    a full buffer, or, for a reader in waiting state, with [n = 0] when, once
    the high watermark had moved, [getHWPos] failed with [io.EOF] or
    [getHWPos] succeeded and [findEntry] on the segment of offset [hw + 1]
    failed with [io.EOF]. *)
Theorem Committed_Read_EOF_only_cancelled (fuel : nat) (rc : CommittedReader)
    (p : list Byte.byte) (e : env W) :
  match Read fuel rc p e with
  | (Returned k (Some io_EOF), _, e') =>
      k = len p
      \/ cancelled_in_wait (future e) (future e')
      \/ (seg rc = None /\ k = 0
          /\ exists hw' : Z,
               syncHW (hw rc) (log e) (calls e) (future e) = Synced hw' e'
               /\ (getHWPos (log e') (Segments (log e')) hw' = inl io_EOF
                   \/ exists (hwIdx : nat) (hwPos' : Z) (s : ptr) (i : nat),
                        getHWPos (log e') (Segments (log e')) hw'
                        = inr (hwIdx, hwPos')
                        /\ findSegment (log e') (Segments (log e'))
                             (wrap64 (hw rc + 1)) = Some (s, i)
                        /\ findEntry (log e') s (wrap64 (hw rc + 1))
                           = inl io_EOF))
  | _ => True
  end.
Proof.
  assert (Hloop : forall (rd : CommittedReader) (segs : list ptr) (e0 : env W),
            match readLoop fuel (State rd p 0 segs) e0 with
            | (Returned k (Some io_EOF), _, e') =>
                k = len p \/ cancelled_in_wait (future e0) (future e')
            | _ => True
            end).
  { intros rd segs e0.
    pose proof (readLoop_EOF fuel (State rd p 0 segs) e0) as He.
    pose proof (readLoop_nil_error fuel (State rd p 0 segs) e0) as Hl.
    destruct (readLoop fuel _ e0) as [[[k [[] |] | | |] st] e']; try exact I.
    cbn [Committed.p] in Hl.
    destruct He as [Hk | Hc]; [left | right; exact Hc].
    unfold len in *. by rewrite <- Hl. }
  unfold Read. destruct (seg rc) as [s |] eqn:Hseg.
  { specialize (Hloop rc (Segments (log e)) e).
    destruct (readLoop fuel _ e) as [[[k [[] |] | | |] st] e']; try exact I.
    destruct Hloop as [Hk | Hc]; auto. }
  unfold enter.
  pose proof (syncHW_outcome (future e) (hw rc) (log e) (calls e)) as Hs.
  destruct (syncHW _ _ _ _) as [hw' e' | e' | e'];
    [| right; left; apply Hs | exact I].
  destruct Hs as (_ & _ & used & Hu & _).
  destruct (getHWPos _ _ _) as [[] | [hwIdx hwPos']] eqn:Hpos; try exact I.
  { right. right. split; [reflexivity |]. split; [reflexivity |].
    exists hw'. split; [reflexivity |]. left. exact Hpos. }
  destruct (_ !! hwIdx) as [s' |]; [| exact I].
  cbn [Committed.seg Committed.hwSeg Committed.pos Committed.hwPos Committed.hw].
  destruct (findSegment _ _ _) as [[s i] |] eqn:Hfind; [| exact I].
  destruct (findEntry _ _ _) as [[] | entry] eqn:Hentry; try exact I.
  { right. right. split; [reflexivity |]. split; [reflexivity |].
    exists hw'. split; [reflexivity |]. right.
    exists hwIdx, hwPos', s, i. auto. }
  specialize (Hloop (Reader (Some s) (Some s') (Position entry) hwPos' hw')
                (Segments (log e')) e').
  destruct (readLoop fuel _ e') as [[[k [[] |] | | |] st] e'']; try exact I.
  destruct Hloop as [Hk | Hc]; [left; exact Hk | right; left].
  rewrite Hu. by apply cancelled_in_wait_app.
Qed.

End CommittedEOF.

(** ** Runs on the concrete log *)


Lemma ReadMessage_panics_iff_short_header_witness :
  (Decoder.ReadMessage (RD := Decoder.whole_read)
     (Wire.frame 1 2 (str "abc")) (buffer 8)).1.1 = Panic.
Proof.
  apply (ReadMessage_panics_iff_short_header Decoder.whole_read
           (Wire.frame 1 2 (str "abc")) (buffer 8));
    [vm_compute; reflexivity | simpl; lia].
Defined.

Lemma Uncommitted_Read_contract_witness :
  let '(out, st, e) :=
    Uncommitted.Read 3 (Uncommitted.Reader 0%nat 0) (buffer 50)
      (Env before_roll [Woken after_roll; Cancelled] []) in
  out <> Panicked
  /\ length (Uncommitted.p st) = 50%nat
  /\ 0 <= Uncommitted.n st <= 50.
Proof.
  pose proof (Uncommitted_Read_contract (API := model_API) 3
                (Uncommitted.Reader 0%nat 0) (buffer 50) before_roll
                [Woken after_roll; Cancelled] model_ReadAt_bounded) as Hw.
  destruct (Uncommitted.Read 3 _ _ _) as [[out st] e].
  destruct Hw as (Ho & Hl & Hn & _). repeat split; try assumption; apply Hn.
Defined.

Lemma Committed_Read_contract_witness :
  let '(out, st, e) :=
    Committed.Read 1 (Committed.Reader (Some 0%nat) (Some 0%nat) 21 66 2)
      (buffer 20) (Env s1 [] []) in
  out = Returned 20 None
  /\ length (Committed.p st) = 20%nat
  /\ take (Z.to_nat (Committed.n st)) (Committed.p st) = copied (calls e).
Proof.
  pose proof (Committed_Read_contract (API := model_API) 1
                (Committed.Reader (Some 0%nat) (Some 0%nat) 21 66 2)
                (buffer 20) s1 [] model_ReadAt_bounded) as Hw.
  destruct (Committed.Read 1 _ _ _) as [[out st] e] eqn:Hrun.
  assert (Hout : out = Returned 20 None).
  { vm_compute in Hrun. by injection Hrun as <- _ _. }
  destruct Hw as (Hl & _ & Ht & _); [rewrite Hout; discriminate |].
  repeat split; assumption.
Defined.

Lemma Read_second_wait_never_resumes_witness :
  exists st' e',
    Uncommitted.Read_body
      (Uncommitted.State (Uncommitted.Reader 0%nat 21) (buffer 50) 21 [0%nat] true)
      (Env before_roll [Woken after_roll; Cancelled] [])
    = (Break st' (Some io_EOF), e')
    /\ future e' = [] /\ Uncommitted.n st' = 21 + len [].
Proof.
  pose proof (Read_second_wait_never_resumes (API := model_API)
                (Uncommitted.State (Uncommitted.Reader 0%nat 21) (buffer 50) 21
                   [0%nat] true)
                (Env before_roll [Woken after_roll; Cancelled] []) []
                eq_refl ltac:(vm_compute; reflexivity)
                ltac:(vm_compute; reflexivity) ltac:(vm_compute; discriminate)
                ltac:(vm_compute; reflexivity)) as Hw.
  destruct (Uncommitted.Read_body _ _) as [[st' | st' err | | st'] e'] eqn:Hb;
    try (vm_compute in Hb; discriminate).
  destruct Hw as (-> & _ & Hn & _).
  exists st', e'. repeat split; [| exact Hn].
  vm_compute in Hb. by injection Hb as _ <-.
Defined.

Lemma NewReaderCommitted_invariant_witness :
  exists rd,
    Committed.NewReaderCommitted s1 5 = Ok rd
    /\ Committed.hw rd = 2 /\ Committed.seg rd = None /\ Committed.pos rd = -1.
Proof.
  eexists. split; [vm_compute; reflexivity |].
  destruct (NewReaderCommitted_invariant (API := model_API) s1 5 _
              ltac:(vm_compute; reflexivity))
    as (Hhw & Hseg & Hpos & _).
  split; [exact Hhw |]. split; [reflexivity | apply Hpos; reflexivity].
Defined.

Lemma Uncommitted_Read_served_in_full_witness :
  (Uncommitted.Read 1 (Uncommitted.Reader 0%nat 0) (buffer 21)
     (Env before_roll [] [])).1.1
  = Returned (len (buffer 21)) None.
Proof.
  rewrite (Uncommitted_Read_served_in_full (API := model_API) 0
             (Uncommitted.Reader 0%nat 0) (buffer 21) (Env before_roll [] [])
             (Wire.frame 0 1 (str "a")) None
             ltac:(vm_compute; reflexivity) ltac:(vm_compute; reflexivity)).
  reflexivity.
Defined.

Lemma Committed_Read_served_in_full_witness :
  (Committed.Read 1 (Committed.Reader (Some 0%nat) (Some 0%nat) 21 66 2)
     (buffer 22) (Env s1 [] [])).1.1
  = Returned (len (buffer 22)) None.
Proof.
  rewrite (Committed_Read_served_in_full (API := model_API) 0
             (Committed.Reader (Some 0%nat) (Some 0%nat) 21 66 2) (buffer 22)
             (Env s1 [] []) 0%nat (Wire.frame 1 2 (str "bb")) None eq_refl
             ltac:(intros _; split; [vm_compute; discriminate
                                    | split; vm_compute; [discriminate | reflexivity]])
             ltac:(vm_compute; reflexivity) ltac:(vm_compute; reflexivity)).
  reflexivity.
Defined.

Lemma Committed_Read_panics_after_reaching_HW_witness :
  (Committed.Read 2 (Committed.Reader (Some 0%nat) (Some 0%nat) 21 66 2)
     (buffer 50) (Env s1 [] [])).1.1
  = Panicked.
Proof.
  apply (Committed_Read_panics_after_reaching_HW (API := model_API) 0
           (Committed.Reader (Some 0%nat) (Some 0%nat) 21 66 2) (buffer 50)
           (Env s1 [] []) 0%nat
           (Wire.frame 1 2 (str "bb") ++ Wire.frame 2 3 (str "ccc")));
    try reflexivity; try (simpl; lia); vm_compute; reflexivity.
Defined.

Lemma waiting_reader_failed_entry_witness :
  let gap :=
    World_ [Seg 0 (unit_messages 11); Seg 20 (unit_messages 6)]
      [0%nat; 1%nat] 25 0 in
  exists rd st,
    Committed.NewReaderCommitted (single 10 10) 100 = Ok rd
    /\ Committed.Read 1 rd (buffer 20) (Env (single 10 10) [Woken gap] [])
       = (Returned 0 (Some (ErrOther "OffsetOutOfRange")), st,
          Env gap [] [CallWaitForHW 10])
    /\ Committed.r st = Committed.Reader (Some 0%nat) (Some 1%nat) (-1) 126 25.
Proof.
  cbv zeta. eexists _, _. split; [vm_compute; reflexivity |].
  pose proof (waiting_reader_failed_entry (API := model_API) (single 10 10) 100 _
                1 (buffer 20)
                (Env (single 10 10)
                   [Woken (World_ [Seg 0 (unit_messages 11); Seg 20 (unit_messages 6)]
                             [0%nat; 1%nat] 25 0)] [])
                (Env (World_ [Seg 0 (unit_messages 11); Seg 20 (unit_messages 6)]
                        [0%nat; 1%nat] 25 0) [] [CallWaitForHW 10])
                25 ltac:(vm_compute; reflexivity) ltac:(vm_compute; reflexivity)
                ltac:(vm_compute; reflexivity)) as Hw.
  destruct (Committed.getHWPos _ _ 25) as [failure | [idx hp]] eqn:Hget;
    [vm_compute in Hget; discriminate |].
  assert (Hi : idx = 1%nat /\ hp = 126).
  { vm_compute in Hget. injection Hget as <- <-. split; reflexivity. }
  destruct Hi as [-> ->].
  destruct (Hw 1%nat 0%nat 0%nat (ErrOther "OffsetOutOfRange")
              ltac:(vm_compute; reflexivity) ltac:(vm_compute; reflexivity)
              ltac:(vm_compute; reflexivity)) as [Hr _].
  rewrite Hr. split; reflexivity.
Defined.
